(** * memcmp32_s: bounds-checked comparison of two arrays of uint32_t

    A shallow embedding of [src/safeclib/memcmp32_s.c] and the properties of
    it that the specification states.

    The C function works on raw pointers, writes its result through an out
    pointer and reports violations to a process-wide handler.  The embedding
    keeps all three: memory is one flat store of 32-bit cells addressed by
    integers (so the out pointer may alias a buffer cell, as in C), every load,
    store and handler call is appended to a trace, and a load or a store
    through an address that is not mapped stops the run with [Fault].

    [int] is taken to be 32 bits wide in two's complement and [uint32_t] to
    be [unsigned int], so that [*dest - *src] is computed modulo 2^32 and
    converted to [int] by reinterpreting the bits. *)

From stdpp Require Import base numbers option list gmap strings.

Open Scope Z_scope.

(** ** Machine integers *)

(** [uint32_t] arithmetic is arithmetic modulo 2^32. *)
Definition wrap32 (z : Z) : Z := z mod 2 ^ 32.

(** The value of a 32-bit pattern read as a (two's complement) [int]. *)
Definition to_int32 (z : Z) : Z :=
  let w := wrap32 z in if w <? 2 ^ 31 then w else w - 2 ^ 32.

(** ** Pointers and memory *)

Definition NULL : Z := 0.

(** [sizeof(uint32_t)]: what [p++] adds to the address held by
    a [const uint32_t *p]. *)
Definition sizeof_uint32 : Z := 4.

(** Address of [p[k]]. *)
Definition elem (p : Z) (k : nat) : Z := p + sizeof_uint32 * Z.of_nat k.

(** Modelled from the spec: the error codes of the library's errno header,
    which is not among the sources; the function's header comment and the
    specification list them as a closed set of distinct outcome codes. *)
Inductive errno_t : Set := EOK | ESNULLP | ESZEROL | ESLEMAX.

#[global] Instance errno_t_eq_dec : EqDecision errno_t.
Proof. solve_decision. Defined.

(** What a run does to the outside world, in program order. *)
Inductive event : Type :=
  | EvLoad (a : Z)
  | EvStore (a : Z) (v : Z)
  | EvHandler (msg : string) (ctx : Z) (err : errno_t).

(** Memory holds 32-bit patterns; the same cell can be read as [uint32_t]
    or as [int]. *)
Record state : Type := mkState {
  mem : gmap Z Z;
  trace : list event
}.

Definition log (e : event) (s : state) : state :=
  {| mem := mem s; trace := trace s ++ [e] |}.

(** ** A state monad with faults *)

Inductive result (A : Type) : Type :=
  | Done (a : A) (s : state)
  | Fault (s : state)
  | OutOfFuel (s : state).

Arguments Done {A} a s.
Arguments Fault {A} s.
Arguments OutOfFuel {A} s.

Definition M (A : Type) : Type := state -> result A.

#[global] Instance M_ret : MRet M := fun A a s => Done a s.

#[global] Instance M_bind : MBind M := fun A B f m s =>
  match m s with
  | Done a s' => f a s'
  | Fault s' => Fault s'
  | OutOfFuel s' => OutOfFuel s'
  end.

(** The state a run ends in, however it ends. *)
Definition final_state {A : Type} (r : result A) : state :=
  match r with
  | Done _ s => s
  | Fault s => s
  | OutOfFuel s => s
  end.

(** [*p] for [const uint32_t *p]. *)
Definition load (a : Z) : M Z := fun s =>
  match mem s !! a with
  | Some v => Done v (log (EvLoad a) s)
  | None => Fault s
  end.

(** [*p = v] for [int *p]: the cell receives the 32-bit pattern of [v]. *)
Definition store (a : Z) (v : Z) : M unit := fun s =>
  match mem s !! a with
  | Some _ =>
      Done tt {| mem := <[a := wrap32 v]> (mem s);
                 trace := trace s ++ [EvStore a (wrap32 v)] |}
  | None => Fault s
  end.

Definition out_of_fuel {A : Type} : M A := fun s => OutOfFuel s.

(** Modelled from the spec: [invoke_safe_mem_constraint_handler], defined in
    the library's constraint module, which is not among the sources.  It
    passes its three arguments to the installed handler; the call is recorded
    and control returns to the caller. *)
Definition invoke_safe_mem_constraint_handler
    (msg : string) (ptr : Z) (error : errno_t) : M unit := fun s =>
  Done tt (log (EvHandler msg ptr error) s).

(** Reading the [int] at an address of a memory. *)
Definition read_int (m : gmap Z Z) (a : Z) : option Z := to_int32 <$> m !! a.

(** ** The function *)

Section Memcmp32.

(** [RSIZE_MAX_MEM32] and [RCNEGATE] come from headers that are not among the
    sources: the limit is any [rsize_t], and [RCNEGATE] maps an error code to
    the integer the build returns for it. *)
Variable RSIZE_MAX_MEM32 : N.
Variable RCNEGATE : errno_t -> Z.

(** The [while] loop with its [break].  [dmax] and [smax] are [rsize_t]
    (unsigned); they are decremented only when nonzero, so no wrap-around
    occurs.  One unit of fuel is spent per evaluation of the loop test. *)
Fixpoint compare_loop (fuel : nat) (dest : Z) (dmax : N) (src : Z) (smax : N)
    (diff : Z) : M unit :=
  match fuel with
  | O => out_of_fuel
  | S fuel' =>
      if negb (dmax =? 0)%N && negb (smax =? 0)%N then
        d ← load dest;
        s ← load src;
        if negb (d =? s) then
          d' ← load dest;
          s' ← load src;
          store diff (wrap32 (d' - s'))
        else
          compare_loop fuel' (dest + sizeof_uint32) (N.pred dmax)
                       (src + sizeof_uint32) (N.pred smax) diff
      else mret tt
  end.

Definition memcmp32_s (dest : Z) (dmax : N) (src : Z) (smax : N) (diff : Z)
    : M Z :=
  if diff =? NULL then
    invoke_safe_mem_constraint_handler "memcmp32_s: diff is null" NULL ESNULLP;;
    mret (RCNEGATE ESNULLP)
  else
    store diff (-1);;
    if dest =? NULL then
      invoke_safe_mem_constraint_handler "memcmp32_s: dest is null" NULL ESNULLP;;
      mret (RCNEGATE ESNULLP)
    else if src =? NULL then
      invoke_safe_mem_constraint_handler "memcmp32_s: src is null" NULL ESNULLP;;
      mret (RCNEGATE ESNULLP)
    else if (dmax =? 0)%N then
      invoke_safe_mem_constraint_handler "memcmp32_s: dmax is 0" NULL ESZEROL;;
      mret (RCNEGATE ESZEROL)
    else if (RSIZE_MAX_MEM32 <? dmax)%N then
      invoke_safe_mem_constraint_handler "memcmp32_s: dmax exceeds max" NULL ESLEMAX;;
      mret (RCNEGATE ESLEMAX)
    else if (smax =? 0)%N then
      invoke_safe_mem_constraint_handler "memcmp32_s: smax is 0" NULL ESZEROL;;
      mret (RCNEGATE ESZEROL)
    else if (dmax <? smax)%N then
      invoke_safe_mem_constraint_handler "memcmp32_s: smax exceeds dmax" NULL ESLEMAX;;
      mret (RCNEGATE ESLEMAX)
    else if dest =? src then
      store diff 0;;
      mret (RCNEGATE EOK)
    else
      store diff 0;;
      compare_loop (S (N.to_nat smax)) dest dmax src smax diff;;
      mret (RCNEGATE EOK).

(** ** What the specification speaks about *)

(** The seven documented constraints, in the order the specification lists
    them. *)
Inductive constraint : Set :=
  | DiffNonNull
  | DestNonNull
  | SrcNonNull
  | DmaxNonZero
  | DmaxWithinLimit
  | SmaxNonZero
  | SmaxWithinDmax.

Definition constraints_in_order : list constraint :=
  [DiffNonNull; DestNonNull; SrcNonNull; DmaxNonZero; DmaxWithinLimit;
   SmaxNonZero; SmaxWithinDmax].

(** The outcome code the specification attaches to each constraint. *)
Definition error_of (c : constraint) : errno_t :=
  match c with
  | DiffNonNull | DestNonNull | SrcNonNull => ESNULLP
  | DmaxNonZero | SmaxNonZero => ESZEROL
  | DmaxWithinLimit | SmaxWithinDmax => ESLEMAX
  end.

Definition violated (dest : Z) (dmax : N) (src : Z) (smax : N) (diff : Z)
    (c : constraint) : bool :=
  match c with
  | DiffNonNull => diff =? NULL
  | DestNonNull => dest =? NULL
  | SrcNonNull => src =? NULL
  | DmaxNonZero => (dmax =? 0)%N
  | DmaxWithinLimit => (RSIZE_MAX_MEM32 <? dmax)%N
  | SmaxNonZero => (smax =? 0)%N
  | SmaxWithinDmax => (dmax <? smax)%N
  end.

(** The first violated constraint in the documented order, if any. *)
Definition first_violation (dest : Z) (dmax : N) (src : Z) (smax : N)
    (diff : Z) : option constraint :=
  List.find (violated dest dmax src smax diff) constraints_in_order.

(** All seven checks pass. *)
Definition checks_pass (dest : Z) (dmax : N) (src : Z) (smax : N) (diff : Z)
    : Prop :=
  diff ≠ NULL ∧ dest ≠ NULL ∧ src ≠ NULL ∧ dmax ≠ 0%N ∧
  (dmax <= RSIZE_MAX_MEM32)%N ∧ smax ≠ 0%N ∧ (smax <= dmax)%N.

(** The message passed to the handler for each constraint. *)
Definition violation_message (c : constraint) : string :=
  match c with
  | DiffNonNull => "memcmp32_s: diff is null"
  | DestNonNull => "memcmp32_s: dest is null"
  | SrcNonNull => "memcmp32_s: src is null"
  | DmaxNonZero => "memcmp32_s: dmax is 0"
  | DmaxWithinLimit => "memcmp32_s: dmax exceeds max"
  | SmaxNonZero => "memcmp32_s: smax is 0"
  | SmaxWithinDmax => "memcmp32_s: smax exceeds dmax"
  end.

(** The buffer at [p] holds the elements of [l]. *)
Definition array_at (m : gmap Z Z) (p : Z) (l : list Z) : Prop :=
  ∀ (k : nat) (v : Z), l !! k = Some v → m !! elem p k = Some v.

(** The first [n] elements at [p] can be read. *)
Definition readable (m : gmap Z Z) (p : Z) (n : nat) : Prop :=
  ∀ k : nat, (k < n)%nat → is_Some (m !! elem p k).

(** The cell [a] is none of the first [n] elements at [p]. *)
Definition apart (a : Z) (p : Z) (n : nat) : Prop :=
  ∀ k : nat, (k < n)%nat → elem p k ≠ a.

(** The parts of a trace. *)
Definition loads (t : list event) : list Z :=
  omap (λ e, match e with EvLoad a => Some a | _ => None end) t.

Definition stores (t : list event) : list (Z * Z) :=
  omap (λ e, match e with EvStore a v => Some (a, v) | _ => None end) t.

Definition handler_calls (t : list event) : list (string * Z * errno_t) :=
  omap (λ e, match e with
             | EvHandler msg ctx err => Some (msg, ctx, err)
             | _ => None
             end) t.

(** The addresses read when the pairs of indices [0 .. n-1] are examined
    in lock-step. *)
Definition lockstep (dest src : Z) (n : nat) : list Z :=
  flat_map (λ k, [elem dest k; elem src k]) (seq 0 n).

(** Number of leading positions at which two lists agree. *)
Fixpoint common_prefix (l1 l2 : list Z) : nat :=
  match l1, l2 with
  | x :: l1', y :: l2' => if x =? y then S (common_prefix l1' l2') else 0
  | _, _ => 0
  end.

(** The state after [*diff = -1]. *)
Definition defaulted (diff : Z) (s : state) : state :=
  {| mem := <[diff := wrap32 (-1)]> (mem s);
     trace := trace s ++ [EvStore diff (wrap32 (-1))] |}.

(** The state after [*diff = -1] followed by [*diff = 0]. *)
Definition zeroed (diff : Z) (s : state) : state :=
  {| mem := <[diff := wrap32 0]> (mem (defaulted diff s));
     trace := trace (defaulted diff s) ++ [EvStore diff (wrap32 0)] |}.

(** The state in which the handler is called for a violation of [c]:
    [*diff = -1] has been executed unless [diff] itself is null. *)
Definition before_handler (c : constraint) (diff : Z) (s : state) : state :=
  match c with
  | DiffNonNull => s
  | _ => defaulted diff s
  end.

(** The loads of a scan that examines [n] pairs starting at [dest], [src]. *)
Fixpoint scan_events (dest src : Z) (n : nat) : list event :=
  match n with
  | O => []
  | S n' =>
      EvLoad dest :: EvLoad src ::
      scan_events (dest + sizeof_uint32) (src + sizeof_uint32) n'
  end.

(** What the scan may do: read anywhere, write only [diff]. *)
Definition scan_event (diff : Z) (e : event) : Prop :=
  match e with
  | EvLoad _ => True
  | EvStore a _ => a = diff
  | EvHandler _ _ _ => False
  end.

(** ** Comparison of lists *)

(** The 32-bit pattern the scan leaves in [diff] when it walks two lists:
    the wrapped difference of the first pair that differs, 0 if none does. *)
Fixpoint first_diff (l1 l2 : list Z) : Z :=
  match l1, l2 with
  | x :: l1', y :: l2' =>
      if x =? y then first_diff l1' l2' else wrap32 (x - y)
  | _, _ => 0
  end.

(** Lexicographic comparison of two lists of integers. *)
Fixpoint lex_compare (l1 l2 : list Z) : comparison :=
  match l1, l2 with
  | x :: l1', y :: l2' =>
      match x ?= y with
      | Eq => lex_compare l1' l2'
      | c => c
      end
  | [], [] => Eq
  | [], _ :: _ => Lt
  | _ :: _, [] => Gt
  end.

(** A load, if [e] is one, reads one of the first [n] elements at [dest] or
    at [src]. *)
Definition load_within (dest src : Z) (n : nat) (e : event) : Prop :=
  match e with
  | EvLoad a => ∃ k : nat, (k < n)%nat ∧ (a = elem dest k ∨ a = elem src k)
  | _ => True
  end.

(** ** Sample calls *)

(** One possible choice of the build's constants, and a few memories, used
    to run the function on concrete calls. *)
Definition sample_limit : N := 67108864.

Definition sample_RCNEGATE (e : errno_t) : Z :=
  match e with
  | EOK => 0
  | ESNULLP => 400
  | ESZEROL => 401
  | ESLEMAX => 403
  end.

(** [dest = 100] holds [1,2,3,4], [src = 200] holds [1,2,99,4], and the
    [int] at 300 holds garbage. *)
Definition mem_mismatch : gmap Z Z :=
  list_to_map [(100, 1); (104, 2); (108, 3); (112, 4);
               (200, 1); (204, 2); (208, 99); (212, 4); (300, 7)].

(** [dest = 100] holds [5,5], [src = 200] holds [5,5,5]. *)
Definition mem_fives : gmap Z Z :=
  list_to_map [(100, 5); (104, 5); (200, 5); (204, 5); (208, 5); (300, 7)].

(** [dest[0] = 0x80000000], [src[0] = 0]. *)
Definition mem_far : gmap Z Z :=
  list_to_map [(100, 2147483648); (200, 0); (300, 7)].

(** Only the [int] at 300 is mapped. *)
Definition mem_bare : gmap Z Z := {[ 300 := 7 ]}.

(** ** Arithmetic facts *)

Lemma wrap32_idemp z : wrap32 (wrap32 z) = wrap32 z.
Proof. unfold wrap32. apply Z.mod_mod. lia. Qed.

Lemma to_int32_wrap32 z : to_int32 (wrap32 z) = to_int32 z.
Proof. unfold to_int32. by rewrite wrap32_idemp. Qed.

Lemma to_int32_small z : - 2 ^ 31 <= z < 2 ^ 31 → to_int32 z = z.
Proof.
  intros Hz. unfold to_int32, wrap32. destruct (Z.lt_ge_cases z 0) as [Hneg|Hpos].
  - rewrite <- (Z.mod_unique_pos z (2 ^ 32) (-1) (z + 2 ^ 32)) by lia.
    destruct (Z.ltb_spec (z + 2 ^ 32) (2 ^ 31)); lia.
  - rewrite Z.mod_small by lia. destruct (Z.ltb_spec z (2 ^ 31)); lia.
Qed.

Lemma to_int32_large z : 2 ^ 31 <= z < 2 ^ 32 → to_int32 z = z - 2 ^ 32.
Proof.
  intros Hz. unfold to_int32, wrap32. rewrite Z.mod_small by lia.
  destruct (Z.ltb_spec z (2 ^ 31)); lia.
Qed.

Lemma min_checked dmax smax : (smax <= dmax)%N → N.min dmax smax = smax.
Proof. lia. Qed.

Lemma elem_0 p : elem p 0 = p.
Proof. unfold elem. lia. Qed.

Lemma elem_S p k : elem p (S k) = elem (p + sizeof_uint32) k.
Proof. unfold elem, sizeof_uint32. lia. Qed.

Lemma scan_events_loads dest src n :
  loads (scan_events dest src n) = lockstep dest src n.
Proof.
  unfold lockstep. revert dest src.
  induction n as [|n IH]; intros dest src; [done|].
  cbn [scan_events]. rewrite <- cons_seq, <- fmap_S_seq.
  cbn [flat_map loads omap list_omap app]. rewrite !elem_0. do 2 f_equal.
  fold (loads (scan_events (dest + sizeof_uint32) (src + sizeof_uint32) n)).
  rewrite IH. clear IH. generalize (seq 0 n) as ks.
  induction ks as [|k ks IH]; [done|].
  cbn [fmap list_fmap flat_map]. rewrite !elem_S. by f_equal.
Qed.

(** ** The monad's equations *)

Lemma bind_Done {A B} (m : M A) (f : A → M B) s a s' :
  m s = Done a s' → (m ≫= f) s = f a s'.
Proof. unfold mbind, M_bind. by intros ->. Qed.

Lemma bind_Fault {A B} (m : M A) (f : A → M B) s s' :
  m s = Fault s' → (m ≫= f) s = Fault s'.
Proof. unfold mbind, M_bind. by intros ->. Qed.

Lemma load_Some a v s :
  mem s !! a = Some v → load a s = Done v (log (EvLoad a) s).
Proof. unfold load. by intros ->. Qed.

Lemma load_None a s : mem s !! a = None → load a s = Fault s.
Proof. unfold load. by intros ->. Qed.

Lemma store_Some a v s :
  is_Some (mem s !! a) →
  store a v s = Done tt {| mem := <[a := wrap32 v]> (mem s);
                           trace := trace s ++ [EvStore a (wrap32 v)] |}.
Proof. unfold store. by intros [x ->]. Qed.

Lemma store_None a v s : mem s !! a = None → store a v s = Fault s.
Proof. unfold store. by intros ->. Qed.

Lemma final_state_then {A B} (m : M A) (b : B) s :
  final_state ((m ≫= λ _, mret b) s) = final_state (m s).
Proof. unfold mbind, M_bind. by destruct (m s). Qed.

(** ** The scan *)

Section Scan.

Variable diff : Z.

(** A scan that meets no mismatch reads [n = min dmax smax] pairs and
    changes nothing. *)
Lemma compare_loop_equal (n : nat) :
  ∀ fuel dest dmax src smax s,
    N.to_nat (N.min dmax smax) = n →
    (n < fuel)%nat →
    (∀ k, (k < n)%nat →
       ∃ v, mem s !! elem dest k = Some v ∧ mem s !! elem src k = Some v) →
    compare_loop fuel dest dmax src smax diff s =
      Done tt {| mem := mem s; trace := trace s ++ scan_events dest src n |}.
Proof.
  induction n as [|n IH]; intros fuel dest dmax src smax s Hn Hfuel Heq;
    (destruct fuel as [|fuel]; [lia|]); cbn [compare_loop].
  - replace (negb (dmax =? 0)%N && negb (smax =? 0)%N) with false.
    + cbn [scan_events]. rewrite app_nil_r. by destruct s.
    + symmetry. apply andb_false_iff. rewrite !negb_false_iff, !N.eqb_eq. lia.
  - replace (negb (dmax =? 0)%N && negb (smax =? 0)%N) with true.
    2:{ symmetry. apply andb_true_iff. rewrite !negb_true_iff, !N.eqb_neq. lia. }
    destruct (Heq 0%nat) as (v & Hd & Hs); [lia|]. rewrite !elem_0 in Hd, Hs.
    erewrite bind_Done by (by apply load_Some).
    erewrite bind_Done by (by apply load_Some).
    rewrite Z.eqb_refl. cbn [negb].
    rewrite (IH fuel); [|lia|lia|].
    + cbn [log mem trace scan_events]. by rewrite <- !app_assoc.
    + intros k Hk. destruct (Heq (S k)) as (w & Hd' & Hs'); [lia|].
      exists w. by rewrite <- !elem_S.
Qed.

(** A scan whose first mismatch is at index [i] reads the pairs [0 .. i],
    reads pair [i] once more for the subtraction and stores the wrapped
    difference. *)
Lemma compare_loop_mismatch (i : nat) :
  ∀ fuel dest dmax src smax s d v,
    (i < N.to_nat (N.min dmax smax))%nat →
    (i < fuel)%nat →
    (∀ k, (k < i)%nat →
       ∃ w, mem s !! elem dest k = Some w ∧ mem s !! elem src k = Some w) →
    mem s !! elem dest i = Some d →
    mem s !! elem src i = Some v →
    d ≠ v →
    is_Some (mem s !! diff) →
    compare_loop fuel dest dmax src smax diff s =
      Done tt {| mem := <[diff := wrap32 (d - v)]> (mem s);
                 trace := trace s ++ scan_events dest src (S i) ++
                          [EvLoad (elem dest i); EvLoad (elem src i);
                           EvStore diff (wrap32 (d - v))] |}.
Proof.
  induction i as [|i IH]; intros fuel dest dmax src smax s d v Hi Hfuel Heq
    Hd Hs Hne Hdiff; (destruct fuel as [|fuel]; [lia|]); cbn [compare_loop];
    (replace (negb (dmax =? 0)%N && negb (smax =? 0)%N) with true
       by (symmetry; apply andb_true_iff;
           rewrite !negb_true_iff, !N.eqb_neq; lia)).
  - rewrite !elem_0 in *.
    erewrite bind_Done by (by apply load_Some).
    erewrite bind_Done by (by apply load_Some).
    apply Z.eqb_neq in Hne as ->. cbn [negb].
    erewrite bind_Done by (by apply load_Some).
    erewrite bind_Done by (by apply load_Some).
    rewrite store_Some by done.
    cbn [log mem trace scan_events]. rewrite wrap32_idemp.
    by rewrite <- !app_assoc.
  - destruct (Heq 0%nat) as (w & Hd0 & Hs0); [lia|].
    rewrite !elem_0 in Hd0, Hs0.
    erewrite bind_Done by (by apply load_Some).
    erewrite bind_Done by (by apply load_Some).
    rewrite Z.eqb_refl. cbn [negb].
    rewrite (IH fuel _ _ _ _ _ d v); cbn [log mem trace]; try done; try lia.
    + rewrite <- !elem_S. cbn [scan_events]. by rewrite <- !app_assoc.
    + intros k Hk. destruct (Heq (S k)) as (w' & Hd' & Hs'); [lia|].
      exists w'. by rewrite <- !elem_S.
    + by rewrite <- elem_S.
    + by rewrite <- elem_S.
Qed.

(** Whatever the memory and the fuel, the scan only reads, writes nothing
    but [diff] and never calls the handler. *)
Lemma compare_loop_frame :
  ∀ fuel dest dmax src smax s,
    ∃ evs,
      trace (final_state (compare_loop fuel dest dmax src smax diff s)) =
        trace s ++ evs ∧
      Forall (scan_event diff) evs ∧
      ∀ a, a ≠ diff →
        mem (final_state (compare_loop fuel dest dmax src smax diff s)) !! a =
        mem s !! a.
Proof.
  induction fuel as [|fuel IH]; intros dest dmax src smax s; cbn [compare_loop].
  { exists []. by rewrite app_nil_r. }
  destruct (negb (dmax =? 0)%N && negb (smax =? 0)%N).
  2:{ exists []. by rewrite app_nil_r. }
  destruct (mem s !! dest) as [d|] eqn:Hd.
  2:{ rewrite (bind_Fault _ _ s s) by (by apply load_None).
      exists []. by rewrite app_nil_r. }
  erewrite bind_Done by (by apply load_Some).
  destruct (mem s !! src) as [v|] eqn:Hs.
  2:{ erewrite bind_Fault by (by apply load_None).
      exists [EvLoad dest]. cbn [final_state log mem trace].
      split; [done|]. split; [by repeat constructor|done]. }
  erewrite bind_Done by (by apply load_Some).
  destruct (negb (d =? v)).
  - erewrite bind_Done by (by apply load_Some).
    erewrite bind_Done by (by apply load_Some).
    destruct (mem s !! diff) as [x|] eqn:Hx.
    + rewrite store_Some by (cbn; eauto). cbn [final_state log mem trace].
      eexists. rewrite <- !app_assoc. split; [done|]. split.
      * repeat constructor.
      * intros a Ha. by rewrite lookup_insert_ne.
    + rewrite store_None by done. cbn [final_state log mem trace].
      eexists. rewrite <- !app_assoc. split; [done|]. split; [|done].
      repeat constructor.
  - destruct (IH (dest + sizeof_uint32) (N.pred dmax) (src + sizeof_uint32)
                 (N.pred smax) (log (EvLoad src) (log (EvLoad dest) s)))
      as (evs & Ht & Hev & Hm).
    exists (EvLoad dest :: EvLoad src :: evs). rewrite Ht.
    cbn [log mem trace] in *. rewrite <- !app_assoc. split; [done|].
    split; [|done]. by repeat constructor.
Qed.

(** With enough fuel, a mapped [diff] and readable buffers the scan
    completes. *)
Lemma compare_loop_returns (n : nat) :
  ∀ fuel dest dmax src smax s,
    N.to_nat (N.min dmax smax) = n →
    (n < fuel)%nat →
    readable (mem s) dest n →
    readable (mem s) src n →
    is_Some (mem s !! diff) →
    ∃ s', compare_loop fuel dest dmax src smax diff s = Done tt s'.
Proof.
  induction n as [|n IH]; intros fuel dest dmax src smax s Hn Hfuel Hrd Hrs Hx;
    (destruct fuel as [|fuel]; [lia|]); cbn [compare_loop].
  - replace (negb (dmax =? 0)%N && negb (smax =? 0)%N) with false; [by eexists|].
    symmetry. apply andb_false_iff. rewrite !negb_false_iff, !N.eqb_eq. lia.
  - replace (negb (dmax =? 0)%N && negb (smax =? 0)%N) with true.
    2:{ symmetry. apply andb_true_iff. rewrite !negb_true_iff, !N.eqb_neq. lia. }
    destruct (Hrd 0%nat) as [d Hd]; [lia|]. destruct (Hrs 0%nat) as [v Hv]; [lia|].
    rewrite elem_0 in Hd, Hv.
    erewrite bind_Done by (by apply load_Some).
    erewrite bind_Done by (by apply load_Some).
    destruct (negb (d =? v)).
    + erewrite bind_Done by (by apply load_Some).
      erewrite bind_Done by (by apply load_Some).
      rewrite store_Some by done. by eexists.
    + apply (IH fuel); cbn [log mem]; [lia|lia| | |done].
      * intros k Hk. rewrite <- elem_S. apply Hrd. lia.
      * intros k Hk. rewrite <- elem_S. apply Hrs. lia.
Qed.

End Scan.

(** ** The function, case by case *)

Lemma first_violation_None dest dmax src smax diff :
  first_violation dest dmax src smax diff = None ↔
  checks_pass dest dmax src smax diff.
Proof.
  unfold first_violation, checks_pass, constraints_in_order.
  cbn [List.find violated].
  destruct (Z.eqb_spec diff NULL), (Z.eqb_spec dest NULL),
    (Z.eqb_spec src NULL), (N.eqb_spec dmax 0), (N.ltb_spec RSIZE_MAX_MEM32 dmax),
    (N.eqb_spec smax 0), (N.ltb_spec dmax smax);
    split; try discriminate; try done; intros (?&?&?&?&?&?&?); try done; lia.
Qed.

Lemma memcmp32_s_violation dest dmax src smax diff s c :
  first_violation dest dmax src smax diff = Some c →
  diff = NULL ∨ is_Some (mem s !! diff) →
  memcmp32_s dest dmax src smax diff s =
    Done (RCNEGATE (error_of c))
         (log (EvHandler (violation_message c) NULL (error_of c))
              (before_handler c diff s)).
Proof.
  unfold first_violation, constraints_in_order, memcmp32_s.
  cbn [List.find violated]. intros Hc Hdiff.
  destruct (Z.eqb_spec diff NULL) as [->|Hnull].
  { by injection Hc as <-. }
  destruct Hdiff as [?|Hdiff]; [done|].
  erewrite bind_Done by (by apply store_Some). fold (defaulted diff s).
  repeat match type of Hc with
         | (if ?b then _ else _) = _ =>
             destruct b; [by injection Hc as <-|]
         end.
  discriminate.
Qed.

Lemma memcmp32_s_bad_diff dest dmax src smax diff s :
  diff ≠ NULL → mem s !! diff = None →
  memcmp32_s dest dmax src smax diff s = Fault s.
Proof.
  intros Hnull Hdiff. unfold memcmp32_s.
  apply Z.eqb_neq in Hnull as ->.
  by erewrite bind_Fault by (by apply store_None).
Qed.

Lemma memcmp32_s_pass dest dmax src smax diff s :
  checks_pass dest dmax src smax diff →
  is_Some (mem s !! diff) →
  memcmp32_s dest dmax src smax diff s =
    if dest =? src then Done (RCNEGATE EOK) (zeroed diff s)
    else (compare_loop (S (N.to_nat smax)) dest dmax src smax diff ≫=
          λ _, mret (RCNEGATE EOK)) (zeroed diff s).
Proof.
  intros (Hdiff & Hdest & Hsrc & Hdmax & Hlim & Hsmax & Hle) Hx.
  unfold memcmp32_s.
  apply Z.eqb_neq in Hdiff as ->. apply Z.eqb_neq in Hdest as ->.
  apply Z.eqb_neq in Hsrc as ->. apply N.eqb_neq in Hdmax as ->.
  apply N.eqb_neq in Hsmax as ->.
  apply N.ltb_ge in Hlim as ->. apply N.ltb_ge in Hle as ->.
  erewrite bind_Done by (by apply store_Some). fold (defaulted diff s).
  assert (is_Some (mem (defaulted diff s) !! diff)) as Hx'.
  { cbn. rewrite lookup_insert_eq. eauto. }
  destruct (dest =? src);
    erewrite bind_Done by (by apply store_Some); by fold (zeroed diff s).
Qed.

Lemma zeroed_lookup_diff diff s : mem (zeroed diff s) !! diff = Some 0.
Proof. cbn. by rewrite lookup_insert_eq. Qed.

Lemma zeroed_lookup_ne diff s a :
  a ≠ diff → mem (zeroed diff s) !! a = mem s !! a.
Proof. intros H. cbn. by rewrite !lookup_insert_ne. Qed.

Lemma zeroed_is_Some diff s a :
  is_Some (mem s !! a) → is_Some (mem (zeroed diff s) !! a).
Proof.
  intros H. destruct (decide (a = diff)) as [->|Hne].
  - rewrite zeroed_lookup_diff. eauto.
  - by rewrite zeroed_lookup_ne.
Qed.

(** ** Comparison proper *)

(** The run of a call that passes the checks on distinct buffers whose
    first mismatch is at index [i]: only the cells up to [i] need to be
    mapped. *)
Lemma memcmp32_s_mismatch_run dest dmax src smax diff s ld ls i d v :
  checks_pass dest dmax src smax diff →
  dest ≠ src →
  is_Some (mem s !! diff) →
  apart diff dest (S i) → apart diff src (S i) →
  array_at (mem s) dest ld → array_at (mem s) src ls →
  (i < N.to_nat smax)%nat →
  take i ld = take i ls →
  ld !! i = Some d → ls !! i = Some v → d ≠ v →
  memcmp32_s dest dmax src smax diff s =
    Done (RCNEGATE EOK)
      {| mem := <[diff := wrap32 (d - v)]> (mem (zeroed diff s));
         trace := trace (zeroed diff s) ++ scan_events dest src (S i) ++
                  [EvLoad (elem dest i); EvLoad (elem src i);
                   EvStore diff (wrap32 (d - v))] |}.
Proof.
  intros Hpass Hne Hdiff Had As Hld Hls Hi Htake Hd Hv Hdv.
  rewrite memcmp32_s_pass by done.
  apply Z.eqb_neq in Hne as ->.
  assert (smax <= dmax)%N as Hle by apply Hpass.
  erewrite bind_Done; [done|].
  apply compare_loop_mismatch; try done.
  - rewrite min_checked by done. lia.
  - lia.
  - intros k Hk.
    assert (is_Some (ld !! k)) as [w Hw].
    { apply lookup_lt_is_Some. apply lookup_lt_Some in Hd. lia. }
    exists w. rewrite !zeroed_lookup_ne by (try apply Had; try apply As; lia).
    split; [by apply Hld|]. apply Hls.
    by rewrite <- (lookup_take_lt ls i k), <- Htake, lookup_take_lt.
  - rewrite zeroed_lookup_ne by (apply Had; lia). by apply Hld.
  - rewrite zeroed_lookup_ne by (apply As; lia). by apply Hls.
  - by apply zeroed_is_Some.
Qed.

(** C1: when all checks pass, the buffers are distinct and the first
    mismatching pair is at index [i] of the scanned length, the call returns
    success; the cell of [diff] holds [dest[i] - src[i]] computed modulo
    2^32, the [int] read from it is that pattern in two's complement (with
    the same sign, trivially), and it is the plain difference whenever that
    fits an [int]. *)
Theorem memcmp32_s_first_mismatch dest dmax src smax diff s ld ls i d v :
  checks_pass dest dmax src smax diff →
  dest ≠ src →
  is_Some (mem s !! diff) →
  apart diff dest (S i) → apart diff src (S i) →
  array_at (mem s) dest ld → array_at (mem s) src ls →
  (i < N.to_nat smax)%nat →
  take i ld = take i ls →
  ld !! i = Some d → ls !! i = Some v → d ≠ v →
  ∃ s' r,
    memcmp32_s dest dmax src smax diff s = Done (RCNEGATE EOK) s' ∧
    mem s' !! diff = Some (wrap32 (d - v)) ∧
    read_int (mem s') diff = Some r ∧
    r = to_int32 (wrap32 (d - v)) ∧
    Z.sgn r = Z.sgn (to_int32 (wrap32 (d - v))) ∧
    (- 2 ^ 31 <= d - v < 2 ^ 31 → r = d - v).
Proof.
  intros. eexists _, (to_int32 (wrap32 (d - v))).
  split; [by eapply memcmp32_s_mismatch_run|].
  cbn [mem]. unfold read_int. rewrite lookup_insert_eq.
  repeat split. intros Hfit. by rewrite to_int32_wrap32, to_int32_small.
Qed.

(** C9: the stored [diff] is the wrapped difference read as a signed [int];
    when the first mismatching element of [dest] exceeds that of [src], as
    unsigned 32-bit values, by 2^31 or more, the returned [diff] is
    negative. *)
Theorem memcmp32_s_diff_sign_wraps dest dmax src smax diff s ld ls i d v :
  checks_pass dest dmax src smax diff →
  dest ≠ src →
  is_Some (mem s !! diff) →
  apart diff dest (S i) → apart diff src (S i) →
  array_at (mem s) dest ld → array_at (mem s) src ls →
  (i < N.to_nat smax)%nat →
  take i ld = take i ls →
  ld !! i = Some d → ls !! i = Some v →
  0 <= v → d < 2 ^ 32 → 2 ^ 31 <= d - v →
  ∃ s',
    memcmp32_s dest dmax src smax diff s = Done (RCNEGATE EOK) s' ∧
    read_int (mem s') diff = Some (to_int32 (wrap32 (d - v))) ∧
    to_int32 (wrap32 (d - v)) = d - v - 2 ^ 32 ∧
    v < d ∧ d - v - 2 ^ 32 < 0.
Proof.
  intros. eexists. split; [eapply memcmp32_s_mismatch_run; try done; lia|].
  cbn [mem]. unfold read_int. rewrite lookup_insert_eq.
  split; [done|]. rewrite to_int32_wrap32, to_int32_large by lia. lia.
Qed.

(** C4: when all checks pass and the first [min dmax smax] elements of the
    two buffers are pairwise equal, the call returns success and [diff]
    is 0. *)
Theorem memcmp32_s_equal dest dmax src smax diff s l :
  checks_pass dest dmax src smax diff →
  is_Some (mem s !! diff) →
  apart diff dest (length l) → apart diff src (length l) →
  array_at (mem s) dest l → array_at (mem s) src l →
  length l = N.to_nat (N.min dmax smax) →
  ∃ s',
    memcmp32_s dest dmax src smax diff s = Done (RCNEGATE EOK) s' ∧
    read_int (mem s') diff = Some 0.
Proof.
  intros Hpass Hdiff Had As Hld Hls Hlen.
  rewrite memcmp32_s_pass by done.
  destruct (dest =? src).
  { eexists. split; [done|]. unfold read_int. by rewrite zeroed_lookup_diff. }
  assert (smax <= dmax)%N as Hle by apply Hpass.
  erewrite bind_Done.
  2:{ apply (compare_loop_equal diff (length l)); [done|rewrite Hlen; lia|].
      intros k Hk. apply lookup_lt_is_Some in Hk as Hw. destruct Hw as [w Hw].
      exists w. rewrite !zeroed_lookup_ne by (try apply Had; try apply As; lia).
      split; [by apply Hld|by apply Hls]. }
  eexists. split; [done|]. cbn [mem]. unfold read_int.
  by rewrite zeroed_lookup_diff.
Qed.

(** C3: when all checks pass and both buffer pointers are the same address,
    the call returns success with [diff] set to 0 and performs no load at
    all; nothing is assumed about the memory behind the pointer. *)
Theorem memcmp32_s_same_pointer p dmax smax diff s :
  checks_pass p dmax p smax diff →
  is_Some (mem s !! diff) →
  ∃ s',
    memcmp32_s p dmax p smax diff s = Done (RCNEGATE EOK) s' ∧
    read_int (mem s') diff = Some 0 ∧
    loads (trace s') = loads (trace s) ∧
    stores (trace s') = stores (trace s) ++
                        [(diff, wrap32 (-1)); (diff, wrap32 0)].
Proof.
  intros Hpass Hdiff. rewrite memcmp32_s_pass by done.
  rewrite Z.eqb_refl. eexists. split; [done|].
  unfold read_int. rewrite zeroed_lookup_diff. split; [done|].
  unfold loads, stores. cbn [zeroed defaulted trace].
  rewrite !omap_app. cbn. by rewrite !app_nil_r, <- app_assoc.
Qed.

(** ** The shape of the scan *)

Lemma loads_app t1 t2 : loads (t1 ++ t2) = loads t1 ++ loads t2.
Proof. apply omap_app. Qed.

Lemma handler_calls_app t1 t2 :
  handler_calls (t1 ++ t2) = handler_calls t1 ++ handler_calls t2.
Proof. apply omap_app. Qed.

Lemma loads_zeroed diff s : loads (trace (zeroed diff s)) = loads (trace s).
Proof. cbn [zeroed defaulted trace]. rewrite !loads_app. cbn. by rewrite !app_nil_r. Qed.

Lemma common_prefix_le_l l1 l2 : (common_prefix l1 l2 ≤ length l1)%nat.
Proof.
  revert l2. induction l1 as [|x l1 IH]; intros [|y l2]; cbn; try lia.
  destruct (x =? y); [|lia]. specialize (IH l2). lia.
Qed.

Lemma common_prefix_take l1 l2 :
  take (common_prefix l1 l2) l1 = take (common_prefix l1 l2) l2.
Proof.
  revert l2. induction l1 as [|x l1 IH]; intros [|y l2]; cbn; try done.
  destruct (Z.eqb_spec x y) as [->|]; [|done]. cbn. by rewrite IH.
Qed.

Lemma common_prefix_mismatch l1 l2 :
  (common_prefix l1 l2 < length l1)%nat →
  (common_prefix l1 l2 < length l2)%nat →
  ∃ d v, l1 !! common_prefix l1 l2 = Some d ∧
         l2 !! common_prefix l1 l2 = Some v ∧ d ≠ v.
Proof.
  revert l2. induction l1 as [|x l1 IH]; intros [|y l2]; cbn; try lia.
  destruct (Z.eqb_spec x y) as [->|Hne].
  - intros H1 H2. apply IH; lia.
  - intros _ _. by exists x, y.
Qed.

(** C5: when all checks pass on distinct buffers, the loads are those of a
    lock-step walk from index 0, one element of each buffer per step; the
    number of pairs examined is at most [min dmax smax], which is [smax];
    the walk ends with the first mismatching pair (index [common_prefix]),
    which is read once more for the subtraction, and no later element is
    loaded. *)
Theorem memcmp32_s_lockstep dest dmax src smax diff s ld ls :
  checks_pass dest dmax src smax diff →
  dest ≠ src →
  is_Some (mem s !! diff) →
  apart diff dest (N.to_nat smax) → apart diff src (N.to_nat smax) →
  array_at (mem s) dest ld → array_at (mem s) src ls →
  length ld = N.to_nat smax → length ls = N.to_nat smax →
  ∃ s' (examined : nat),
    memcmp32_s dest dmax src smax diff s = Done (RCNEGATE EOK) s' ∧
    examined = (S (common_prefix ld ls) `min` N.to_nat smax)%nat ∧
    loads (trace s') =
      loads (trace s) ++ lockstep dest src examined ++
      (if decide (common_prefix ld ls < N.to_nat smax)%nat
       then [elem dest (common_prefix ld ls); elem src (common_prefix ld ls)]
       else []) ∧
    (examined ≤ N.to_nat (N.min dmax smax))%nat ∧
    N.min dmax smax = smax.
Proof.
  intros Hpass Hne Hdiff Had As Hld Hls Hlend Hlens.
  assert (smax <= dmax)%N as Hle by apply Hpass.
  pose proof (common_prefix_le_l ld ls) as Hc.
  pose proof (common_prefix_take ld ls) as Htake.
  set (c := common_prefix ld ls) in *.
  destruct (decide (c < N.to_nat smax)%nat) as [Hlt|Hge].
  - destruct (common_prefix_mismatch ld ls) as (d & v & Hd & Hv & Hdv); [lia..|].
    fold c in Hd, Hv.
    eexists _, _. split.
    { eapply (memcmp32_s_mismatch_run _ _ _ _ _ _ ld ls c); try done.
      - intros k Hk. apply Had. lia.
      - intros k Hk. apply As. lia. }
    split; [done|]. cbn [trace].
    rewrite !loads_app, loads_zeroed, scan_events_loads.
    rewrite min_checked by done.
    replace (S c `min` N.to_nat smax)%nat with (S c) by lia.
    split; [done|]. split; [lia|done].
  - assert (c = length ld) as Hcn by lia.
    assert (ld = ls) as <-.
    { rewrite <- (take_ge ld c), <- (take_ge ls c) by lia. done. }
    rewrite memcmp32_s_pass by done. apply Z.eqb_neq in Hne as ->.
    erewrite bind_Done.
    2:{ apply (compare_loop_equal diff (N.to_nat smax)).
        - rewrite min_checked by done. lia.
        - lia.
        - intros k Hk.
          assert (is_Some (ld !! k)) as [w Hw] by (apply lookup_lt_is_Some; lia).
          exists w. rewrite !zeroed_lookup_ne by (try apply Had; try apply As; lia).
          split; [by apply Hld|by apply Hls]. }
    eexists _, _. split; [done|]. split; [done|]. cbn [trace].
    rewrite !loads_app, loads_zeroed, scan_events_loads.
    rewrite min_checked by done.
    replace (S c `min` N.to_nat smax)%nat with (N.to_nat smax) by lia.
    rewrite app_nil_r. split; [done|]. split; [lia|done].
Qed.

(** ** Constraint checking *)

Lemma find_first {A} (f : A → bool) (l pre post : list A) (x : A) :
  l = pre ++ x :: post →
  Forall (λ y, f y = false) pre →
  f x = true →
  List.find f l = Some x.
Proof.
  intros -> Hpre Hx. induction Hpre as [|y pre Hy _ IH]; cbn.
  - by rewrite Hx.
  - by rewrite Hy.
Qed.

Lemma every_constraint_listed c : In c constraints_in_order.
Proof. destruct c; cbn; tauto. Qed.

Lemma error_of_not_EOK c : error_of c ≠ EOK.
Proof. by destruct c. Qed.

Lemma first_violation_DiffNonNull dest dmax src smax diff :
  diff ≠ NULL → first_violation dest dmax src smax diff ≠ Some DiffNonNull.
Proof.
  intros Hdiff Hc. apply List.find_some in Hc as [_ Hc]. cbn in Hc.
  by apply Z.eqb_eq in Hc.
Qed.

(** C2: the checks are made in the documented order.  If the constraint [c]
    is violated and every constraint listed before it holds, the call
    returns the code of [c], whatever the later constraints and the contents
    of memory are. *)
Theorem memcmp32_s_check_order dest dmax src smax diff s c pre post :
  constraints_in_order = pre ++ c :: post →
  Forall (λ c', violated dest dmax src smax diff c' = false) pre →
  violated dest dmax src smax diff c = true →
  diff = NULL ∨ is_Some (mem s !! diff) →
  ∃ s', memcmp32_s dest dmax src smax diff s = Done (RCNEGATE (error_of c)) s'.
Proof.
  intros Hlist Hpre Hc Hdiff. eexists.
  apply memcmp32_s_violation; [|done].
  by apply (find_first _ _ pre post).
Qed.

(** C6: when a check other than the one on [diff] itself fails, the cell of
    [diff] holds -1 on return. *)
Theorem memcmp32_s_error_default dest dmax src smax diff s c :
  first_violation dest dmax src smax diff = Some c →
  c ≠ DiffNonNull →
  is_Some (mem s !! diff) →
  ∃ s',
    memcmp32_s dest dmax src smax diff s = Done (RCNEGATE (error_of c)) s' ∧
    read_int (mem s') diff = Some (-1).
Proof.
  intros Hc Hne Hdiff. eexists. split.
  { apply memcmp32_s_violation; [done|by right]. }
  destruct c; try done; cbn [before_handler log mem defaulted];
    unfold read_int; by rewrite lookup_insert_eq.
Qed.

(** A call that passes the checks returns success, provided the scanned
    elements can be read; after the two stores to [diff] it only scans. *)
Lemma memcmp32_s_pass_returns dest dmax src smax diff s :
  checks_pass dest dmax src smax diff →
  is_Some (mem s !! diff) →
  (dest ≠ src →
   readable (mem s) dest (N.to_nat smax) ∧
   readable (mem s) src (N.to_nat smax)) →
  ∃ s' evs,
    memcmp32_s dest dmax src smax diff s = Done (RCNEGATE EOK) s' ∧
    trace s' = trace (zeroed diff s) ++ evs ∧
    Forall (scan_event diff) evs.
Proof.
  intros Hpass Hx Hread. rewrite memcmp32_s_pass by done.
  destruct (Z.eqb_spec dest src) as [|Hne].
  { exists (zeroed diff s), []. by rewrite app_nil_r. }
  destruct (Hread Hne) as [Hrd Hrs].
  destruct (compare_loop_returns diff (N.to_nat smax) (S (N.to_nat smax))
              dest dmax src smax (zeroed diff s)) as [s1 Hs1].
  - destruct Hpass as (_&_&_&_&_&_&?). lia.
  - lia.
  - intros k Hk. apply zeroed_is_Some. by apply Hrd.
  - intros k Hk. apply zeroed_is_Some. by apply Hrs.
  - by apply zeroed_is_Some.
  - destruct (compare_loop_frame diff (S (N.to_nat smax)) dest dmax src smax
                (zeroed diff s)) as (evs & Ht & Hev & _).
    rewrite Hs1 in Ht. cbn [final_state] in Ht.
    erewrite bind_Done by done. by exists s1, evs.
Qed.

(** C7: the call returns a code other than [RCNEGATE EOK] exactly when one
    of the seven constraints is violated; when all of them hold it returns
    [RCNEGATE EOK], whatever the readable buffers contain. *)
Theorem memcmp32_s_error_iff_violation dest dmax src smax diff s :
  (∀ e, RCNEGATE e = RCNEGATE EOK → e = EOK) →
  diff = NULL ∨ is_Some (mem s !! diff) →
  (checks_pass dest dmax src smax diff → dest ≠ src →
   readable (mem s) dest (N.to_nat smax) ∧
   readable (mem s) src (N.to_nat smax)) →
  ∃ rc s',
    memcmp32_s dest dmax src smax diff s = Done rc s' ∧
    (rc ≠ RCNEGATE EOK ↔ ∃ c, violated dest dmax src smax diff c = true) ∧
    (checks_pass dest dmax src smax diff → rc = RCNEGATE EOK).
Proof.
  intros Hinj Hdiff Hread.
  destruct (first_violation dest dmax src smax diff) as [c|] eqn:Hc.
  - eexists _, _. split; [by apply memcmp32_s_violation|]. split.
    + split.
      * intros _. exists c. by apply List.find_some in Hc as [_ Hc].
      * intros _ Heq. by apply Hinj, error_of_not_EOK in Heq.
    + intros Hpass. apply first_violation_None in Hpass. congruence.
  - pose proof Hc as Hnone. apply first_violation_None in Hc as Hpass.
    assert (is_Some (mem s !! diff)) as Hx.
    { destruct Hdiff as [Hnull|]; [|done]. by destruct Hpass as [? _]. }
    destruct (memcmp32_s_pass_returns dest dmax src smax diff s)
      as (s' & evs & Hrun & _); [done|done|by apply Hread|].
    exists (RCNEGATE EOK), s'. split; [done|]. split; [|done]. split; [done|].
    intros [c Hv] _.
    by rewrite (List.find_none _ _ Hnone c (every_constraint_listed c)) in Hv.
Qed.

Lemma scan_events_no_handler diff evs :
  Forall (scan_event diff) evs → handler_calls evs = [].
Proof.
  induction 1 as [|e evs He _ IH]; [done|]. by destruct e.
Qed.

Lemma scan_events_stores diff evs a v :
  Forall (scan_event diff) evs → EvStore a v ∈ evs → a = diff.
Proof. intros Hev Hin. by apply (proj1 (Forall_forall _ _) Hev) in Hin. Qed.

(** C8: on a constraint violation the handler is called exactly once, as
    the last thing before the return, with the message of the violated
    constraint, a null context and the error whose code is returned; a
    successful call never calls it. *)
Theorem memcmp32_s_handler dest dmax src smax diff s :
  diff = NULL ∨ is_Some (mem s !! diff) →
  (checks_pass dest dmax src smax diff → dest ≠ src →
   readable (mem s) dest (N.to_nat smax) ∧
   readable (mem s) src (N.to_nat smax)) →
  ∃ rc s' evs,
    memcmp32_s dest dmax src smax diff s = Done rc s' ∧
    trace s' = trace s ++ evs ∧
    match first_violation dest dmax src smax diff with
    | Some c =>
        rc = RCNEGATE (error_of c) ∧
        handler_calls evs = [(violation_message c, NULL, error_of c)] ∧
        ∃ pre, evs = pre ++ [EvHandler (violation_message c) NULL (error_of c)]
    | None =>
        rc = RCNEGATE EOK ∧ handler_calls evs = []
    end.
Proof.
  intros Hdiff Hread.
  destruct (first_violation dest dmax src smax diff) as [c|] eqn:Hc.
  - eexists _, _,
      (match c with
       | DiffNonNull => []
       | _ => [EvStore diff (wrap32 (-1))]
       end ++ [EvHandler (violation_message c) NULL (error_of c)]).
    split; [by apply memcmp32_s_violation|].
    split; [|split; [done|]; split; [by destruct c|by eexists]].
    destruct c; cbn [before_handler log defaulted trace mem];
      by rewrite <- ?app_assoc.
  - apply first_violation_None in Hc as Hpass.
    assert (is_Some (mem s !! diff)) as Hx.
    { destruct Hdiff as [Hnull|]; [|done]. by destruct Hpass as [? _]. }
    destruct (memcmp32_s_pass_returns dest dmax src smax diff s)
      as (s' & evs & Hrun & Ht & Hev); [done|done|by apply Hread|].
    eexists _, s', _. split; [done|]. rewrite Ht.
    cbn [zeroed defaulted trace]. rewrite <- !app_assoc. split; [done|].
    split; [done|]. rewrite !handler_calls_app.
    by rewrite (scan_events_no_handler diff evs).
Qed.

(** C10: on every call, however it ends, every store goes to the cell
    of [diff], every other cell keeps its contents (so the elements of [dest]
    and [src] do, unless [diff] points at one of them), and with a null
    [diff] nothing is stored and memory is unchanged. *)
Theorem memcmp32_s_frame dest dmax src smax diff s :
  ∃ evs,
    trace (final_state (memcmp32_s dest dmax src smax diff s)) =
      trace s ++ evs ∧
    (∀ a v, EvStore a v ∈ evs → a = diff ∧ diff ≠ NULL) ∧
    (∀ a, a ≠ diff →
       mem (final_state (memcmp32_s dest dmax src smax diff s)) !! a =
       mem s !! a) ∧
    (∀ k, elem dest k ≠ diff →
       mem (final_state (memcmp32_s dest dmax src smax diff s)) !! elem dest k =
       mem s !! elem dest k) ∧
    (∀ k, elem src k ≠ diff →
       mem (final_state (memcmp32_s dest dmax src smax diff s)) !! elem src k =
       mem s !! elem src k) ∧
    (diff = NULL →
       mem (final_state (memcmp32_s dest dmax src smax diff s)) = mem s).
Proof.
  cut (∃ evs,
    trace (final_state (memcmp32_s dest dmax src smax diff s)) =
      trace s ++ evs ∧
    (∀ a v, EvStore a v ∈ evs → a = diff ∧ diff ≠ NULL) ∧
    (∀ a, a ≠ diff →
       mem (final_state (memcmp32_s dest dmax src smax diff s)) !! a =
       mem s !! a) ∧
    (diff = NULL →
       mem (final_state (memcmp32_s dest dmax src smax diff s)) = mem s)).
  { intros (evs & Ht & Hst & Hm & Hnull). exists evs. eauto 10. }
  destruct (decide (diff = NULL)) as [->|Hdiff].
  { rewrite (memcmp32_s_violation _ _ _ _ _ _ DiffNonNull) by (done || by left).
    cbn [final_state before_handler log mem trace]. eexists.
    split; [done|]. split; [|done].
    intros a v Hin. apply list_elem_of_singleton in Hin. discriminate. }
  destruct (mem s !! diff) as [x|] eqn:Hx.
  2:{ rewrite memcmp32_s_bad_diff by done. exists [].
      cbn [final_state]. rewrite app_nil_r. split; [done|].
      split; [|done]. intros a v Hin. by apply elem_of_nil in Hin. }
  destruct (first_violation dest dmax src smax diff) as [c|] eqn:Hc.
  - rewrite (memcmp32_s_violation _ _ _ _ _ _ c) by (done || right; eauto).
    assert (c ≠ DiffNonNull) as Hne.
    { intros ->. by apply first_violation_DiffNonNull in Hc. }
    exists [EvStore diff (wrap32 (-1));
            EvHandler (violation_message c) NULL (error_of c)].
    destruct c; try done; cbn [final_state before_handler log mem trace defaulted];
      rewrite <- ?app_assoc; (split; [done|]); (split; [|split; [|done]]);
      try (intros a Ha; by rewrite lookup_insert_ne);
      intros a v Hin; apply elem_of_cons in Hin as [Hin|Hin];
      try (by injection Hin as -> _);
      apply list_elem_of_singleton in Hin; discriminate.
  - apply first_violation_None in Hc as Hpass.
    rewrite memcmp32_s_pass by eauto.
    destruct (dest =? src).
    + exists [EvStore diff (wrap32 (-1)); EvStore diff (wrap32 0)].
      cbn [final_state zeroed defaulted mem trace]. rewrite <- ?app_assoc.
      split; [done|]. split; [|split; [|done]].
      * intros a v Hin. apply elem_of_cons in Hin as [Hin|Hin];
          [by injection Hin as -> _|].
        apply list_elem_of_singleton in Hin. by injection Hin as -> _.
      * intros a Ha. by rewrite !lookup_insert_ne.
    + rewrite final_state_then.
      destruct (compare_loop_frame diff (S (N.to_nat smax)) dest dmax src smax
                  (zeroed diff s)) as (evs & Ht & Hev & Hm).
      exists ([EvStore diff (wrap32 (-1)); EvStore diff (wrap32 0)] ++ evs).
      rewrite Ht. cbn [zeroed defaulted trace]. rewrite <- !app_assoc.
      split; [done|]. split; [|split; [|done]].
      * intros a v Hin. apply elem_of_app in Hin as [Hin|Hin].
        -- apply elem_of_cons in Hin as [Hin|Hin];
             [by injection Hin as -> _|].
           apply list_elem_of_singleton in Hin. by injection Hin as -> _.
        -- split; [|done]. by apply (scan_events_stores diff evs a v).
      * intros a Ha. rewrite Hm by done. by apply zeroed_lookup_ne.
Qed.

(** ** Bounds of the scan *)

Lemma load_within_S dest src n e :
  load_within (dest + sizeof_uint32) (src + sizeof_uint32) n e →
  load_within dest src (S n) e.
Proof.
  destruct e as [a| |]; cbn; [|done..]. intros (k & Hk & Ha).
  exists (S k). rewrite !elem_S. split; [lia|done].
Qed.

Lemma load_within_0 dest src n : (0 < n)%nat →
  load_within dest src n (EvLoad dest) ∧ load_within dest src n (EvLoad src).
Proof. intros Hn. split; exists 0%nat; rewrite !elem_0; eauto. Qed.

(** Whatever the memory, the loop loads only elements below
    [min dmax smax], at most [2 * min dmax smax + 2] of them, and needs at
    most [min dmax smax + 1] evaluations of its test. *)
Lemma compare_loop_bounds diff :
  ∀ fuel dest dmax src smax s,
    ∃ evs,
      trace (final_state (compare_loop fuel dest dmax src smax diff s)) =
        trace s ++ evs ∧
      Forall (load_within dest src (N.to_nat (N.min dmax smax))) evs ∧
      (length (loads evs) ≤ 2 * N.to_nat (N.min dmax smax) + 2)%nat ∧
      ((N.to_nat (N.min dmax smax) < fuel)%nat →
       ∀ s', compare_loop fuel dest dmax src smax diff s ≠ OutOfFuel s').
Proof.
  induction fuel as [|fuel IH]; intros dest dmax src smax s; cbn [compare_loop].
  { exists []. rewrite app_nil_r. repeat split; [done|cbn; lia|lia]. }
  destruct (negb (dmax =? 0)%N && negb (smax =? 0)%N) eqn:Htest.
  2:{ exists []. rewrite app_nil_r. repeat split; [done|cbn; lia|done]. }
  apply andb_true_iff in Htest as [Hd0 Hs0].
  apply negb_true_iff, N.eqb_neq in Hd0, Hs0.
  set (n := N.to_nat (N.min dmax smax)).
  assert (0 < n)%nat as Hn by (subst n; lia).
  destruct (load_within_0 dest src n Hn) as [Hwd Hws].
  destruct (mem s !! dest) as [d|] eqn:Hd.
  2:{ rewrite (bind_Fault _ _ s s) by (by apply load_None).
      exists []. rewrite app_nil_r. repeat split; [done|cbn; lia|done]. }
  erewrite bind_Done by (by apply load_Some).
  destruct (mem s !! src) as [v|] eqn:Hs.
  2:{ erewrite bind_Fault by (by apply load_None).
      exists [EvLoad dest]. cbn [final_state log mem trace].
      repeat split; [by repeat constructor|cbn; lia|done]. }
  erewrite bind_Done by (by apply load_Some).
  destruct (negb (d =? v)).
  - erewrite bind_Done by (by apply load_Some).
    erewrite bind_Done by (by apply load_Some).
    destruct (mem s !! diff) as [x|] eqn:Hx.
    + rewrite store_Some by (cbn; eauto). cbn [final_state log mem trace].
      eexists. rewrite <- !app_assoc. split; [done|].
      repeat split; [by repeat constructor|cbn; lia|done].
    + rewrite store_None by done. cbn [final_state log mem trace].
      eexists. rewrite <- !app_assoc. split; [done|].
      repeat split; [by repeat constructor|cbn; lia|done].
  - destruct (IH (dest + sizeof_uint32) (N.pred dmax) (src + sizeof_uint32)
                 (N.pred smax) (log (EvLoad src) (log (EvLoad dest) s)))
      as (evs & Ht & Hev & Hlen & Hfuel).
    replace (N.to_nat (N.min (N.pred dmax) (N.pred smax))) with (pred n)
      in Hev, Hlen, Hfuel by (subst n; lia).
    exists (EvLoad dest :: EvLoad src :: evs). rewrite Ht.
    cbn [log mem trace]. rewrite <- !app_assoc. split; [done|].
    split; [|split].
    + repeat (constructor; [done|]).
      eapply Forall_impl; [exact Hev|]. intros e He.
      replace n with (S (pred n)) by lia. by apply load_within_S.
    + change (loads (EvLoad dest :: EvLoad src :: evs))
        with (dest :: src :: loads evs).
      cbn [length]. lia.
    + intros Hlt. apply Hfuel. lia.
Qed.

(** X1: on every call and every memory, however the run ends, a load only
    happens after all seven checks have passed on distinct pointers, and
    then reads one of the first [smax] elements of [dest] or [src]; the run
    makes at most [2 * smax + 2] loads (so at most
    [2 * RSIZE_MAX_MEM32 + 2]) and the loop ends within [smax + 1]
    evaluations of its test. *)
Theorem memcmp32_s_loads_in_bounds dest dmax src smax diff s :
  ∃ evs,
    trace (final_state (memcmp32_s dest dmax src smax diff s)) =
      trace s ++ evs ∧
    (∀ a, EvLoad a ∈ evs →
       checks_pass dest dmax src smax diff ∧ dest ≠ src ∧
       ∃ k : nat, (k < N.to_nat smax)%nat ∧ (k < N.to_nat dmax)%nat ∧
                  (a = elem dest k ∨ a = elem src k)) ∧
    (length (loads evs) ≤ 2 * N.to_nat smax + 2)%nat ∧
    (length (loads evs) ≤ 2 * N.to_nat RSIZE_MAX_MEM32 + 2)%nat ∧
    (∀ s', memcmp32_s dest dmax src smax diff s ≠ OutOfFuel s').
Proof.
  assert (∀ evs : list event,
            (∀ e, e ∈ evs → ∀ a, e ≠ EvLoad a) →
            (∀ a, EvLoad a ∈ evs →
               checks_pass dest dmax src smax diff ∧ dest ≠ src ∧
               ∃ k : nat, (k < N.to_nat smax)%nat ∧ (k < N.to_nat dmax)%nat ∧
                          (a = elem dest k ∨ a = elem src k))) as Hnoload.
  { intros evs Hevs a Hin. by destruct (Hevs _ Hin a). }
  destruct (decide (diff = NULL)) as [->|Hdiff].
  { rewrite (memcmp32_s_violation _ _ _ _ _ _ DiffNonNull) by (done || by left).
    cbn [final_state before_handler log mem trace]. eexists.
    split; [done|]. split; [|cbn; split; [lia|split; [lia|done]]].
    apply Hnoload. intros e He a. apply list_elem_of_singleton in He as ->.
    discriminate. }
  destruct (mem s !! diff) as [x|] eqn:Hx.
  2:{ rewrite memcmp32_s_bad_diff by done. exists [].
      cbn [final_state]. rewrite app_nil_r. split; [done|].
      split; [|cbn; split; [lia|split; [lia|done]]].
      intros a Hin. by apply elem_of_nil in Hin. }
  destruct (first_violation dest dmax src smax diff) as [c|] eqn:Hc.
  - rewrite (memcmp32_s_violation _ _ _ _ _ _ c) by (done || right; eauto).
    exists (match c with
            | DiffNonNull => []
            | _ => [EvStore diff (wrap32 (-1))]
            end ++ [EvHandler (violation_message c) NULL (error_of c)]).
    split; [|split; [|destruct c; cbn; (split; [lia|split; [lia|done]])]].
    + destruct c; cbn [final_state before_handler log defaulted trace mem];
        by rewrite <- ?app_assoc.
    + apply Hnoload. intros e He a.
      apply elem_of_app in He as [He|He].
      * destruct c; try (by apply elem_of_nil in He);
          apply list_elem_of_singleton in He as ->; discriminate.
      * apply list_elem_of_singleton in He as ->. discriminate.
  - apply first_violation_None in Hc as Hpass.
    pose proof Hpass as (_ & _ & _ & _ & Hlim & _ & Hle).
    rewrite memcmp32_s_pass by eauto.
    destruct (Z.eqb_spec dest src) as [Heq|Hne].
    + exists [EvStore diff (wrap32 (-1)); EvStore diff (wrap32 0)].
      cbn [final_state zeroed defaulted mem trace]. rewrite <- ?app_assoc.
      split; [done|]. split; [|cbn; split; [lia|split; [lia|done]]].
      apply Hnoload. intros e He a.
      apply elem_of_cons in He as [->|He]; [discriminate|].
      apply list_elem_of_singleton in He as ->. discriminate.
    + destruct (compare_loop_bounds diff (S (N.to_nat smax)) dest dmax src smax
                  (zeroed diff s)) as (evs & Ht & Hev & Hlen & Hfuel).
      rewrite min_checked in Hev, Hlen, Hfuel by done.
      exists ([EvStore diff (wrap32 (-1)); EvStore diff (wrap32 0)] ++ evs).
      rewrite final_state_then, Ht. cbn [zeroed defaulted trace].
      rewrite <- !app_assoc. split; [done|]. split; [|split; [|split]].
      * intros a Hin. split; [done|]. split; [done|].
        apply elem_of_app in Hin as [Hin|Hin].
        { apply elem_of_cons in Hin as [Hin|Hin]; [discriminate|].
          apply list_elem_of_singleton in Hin. discriminate. }
        apply (proj1 (Forall_forall _ _) Hev) in Hin as (k & Hk & Ha).
        exists k. split; [done|]. split; [lia|done].
      * rewrite loads_app. change (loads [_; _]) with (@nil Z).
        cbn [app]. lia.
      * rewrite loads_app. change (loads [_; _]) with (@nil Z).
        cbn [app]. lia.
      * intros s' Hrun. unfold mbind, M_bind in Hrun.
        destruct (compare_loop (S (N.to_nat smax)) dest dmax src smax diff
                    (zeroed diff s)) as [[] s1|s1|s1] eqn:Hloop;
          try discriminate.
        by apply (Hfuel ltac:(lia) s1).
Qed.

(** ** The scan as a function of the two lists *)

Lemma first_diff_refl l : first_diff l l = 0.
Proof. induction l as [|x l IH]; [done|]. cbn. by rewrite Z.eqb_refl. Qed.

Lemma first_diff_spec l1 l2 :
  length l1 = length l2 →
  (l1 = l2 ∧ first_diff l1 l2 = 0) ∨
  (∃ d v, l1 !! common_prefix l1 l2 = Some d ∧
          l2 !! common_prefix l1 l2 = Some v ∧
          d ≠ v ∧ first_diff l1 l2 = wrap32 (d - v)).
Proof.
  revert l2. induction l1 as [|x l1 IH]; intros [|y l2] Hlen;
    try discriminate; [by left|].
  cbn [first_diff common_prefix].
  destruct (Z.eqb_spec x y) as [->|Hne].
  - destruct (IH l2) as [[-> H0]|(d & v & Hd & Hv & Hdv & Hfd)].
    + by injection Hlen.
    + by left.
    + right. by exists d, v.
  - right. by exists x, y.
Qed.

Lemma first_diff_range l1 l2 : 0 <= first_diff l1 l2 < 2 ^ 32.
Proof.
  revert l2. induction l1 as [|x l1 IH]; intros [|y l2]; cbn; try lia.
  destruct (x =? y); [apply IH|]. unfold wrap32. apply Z.mod_pos_bound. lia.
Qed.

Lemma wrap32_sub_zero x y :
  0 <= x < 2 ^ 32 → 0 <= y < 2 ^ 32 → wrap32 (x - y) = 0 → x = y.
Proof.
  intros Hx Hy. unfold wrap32. destruct (Z.lt_ge_cases (x - y) 0).
  - rewrite <- (Z.mod_unique_pos (x - y) (2 ^ 32) (-1) (x - y + 2 ^ 32)) by lia.
    lia.
  - rewrite Z.mod_small by lia. lia.
Qed.

Lemma first_diff_zero_iff l1 l2 :
  length l1 = length l2 →
  Forall (λ x, 0 <= x < 2 ^ 32) l1 →
  Forall (λ x, 0 <= x < 2 ^ 32) l2 →
  first_diff l1 l2 = 0 ↔ l1 = l2.
Proof.
  intros Hlen H1 H2. split; [|intros ->; apply first_diff_refl].
  revert l2 Hlen H2. induction H1 as [|x l1 Hx _ IH]; intros [|y l2] Hlen H2;
    try discriminate; [done|].
  apply Forall_cons in H2 as [Hy H2]. cbn.
  destruct (Z.eqb_spec x y) as [->|Hne].
  - intros H0. f_equal. apply IH; [by injection Hlen|done|done].
  - intros H0. by apply wrap32_sub_zero in H0.
Qed.

Lemma to_int32_zero p : 0 <= p < 2 ^ 32 → to_int32 p = 0 ↔ p = 0.
Proof.
  intros Hp. unfold to_int32, wrap32. rewrite Z.mod_small by lia.
  destruct (Z.ltb_spec p (2 ^ 31)); lia.
Qed.

Lemma first_diff_sign l1 l2 :
  length l1 = length l2 →
  Forall (λ x, 0 <= x < 2 ^ 31) l1 →
  Forall (λ x, 0 <= x < 2 ^ 31) l2 →
  (to_int32 (first_diff l1 l2) ?= 0) = lex_compare l1 l2.
Proof.
  intros Hlen H1. revert l2 Hlen.
  induction H1 as [|x l1 Hx _ IH]; intros [|y l2] Hlen H2;
    try discriminate; [done|].
  apply Forall_cons in H2 as [Hy H2]. cbn [first_diff lex_compare].
  destruct (Z.eqb_spec x y) as [->|Hne].
  - rewrite Z.compare_refl. apply IH; [by injection Hlen|done].
  - rewrite to_int32_wrap32, to_int32_small by lia.
    rewrite <- Z.compare_sub. destruct (Z.compare_spec x y); done.
Qed.

Lemma wrap32_opp z : wrap32 (- wrap32 z) = wrap32 (- z).
Proof.
  unfold wrap32. rewrite <- !Z.sub_0_l. apply Zminus_mod_idemp_r.
Qed.

Lemma first_diff_swap l1 l2 :
  first_diff l2 l1 = wrap32 (- first_diff l1 l2).
Proof.
  revert l2. induction l1 as [|x l1 IH]; intros [|y l2]; cbn; try done.
  rewrite (Z.eqb_sym y x). destruct (x =? y); [apply IH|].
  rewrite wrap32_opp. f_equal. lia.
Qed.

Lemma to_int32_opp p :
  0 <= p < 2 ^ 32 → to_int32 p ≠ - 2 ^ 31 →
  to_int32 (wrap32 (- p)) = - to_int32 p.
Proof.
  intros Hp Hmin. destruct (decide (p = 0)) as [->|Hnz]; [done|].
  assert (wrap32 (- p) = 2 ^ 32 - p) as ->.
  { unfold wrap32. symmetry. apply (Z.mod_unique_pos _ _ (-1)); lia. }
  destruct (Z.lt_ge_cases p (2 ^ 31)).
  - rewrite to_int32_large, (to_int32_small p) by lia. lia.
  - rewrite (to_int32_large p) in * by lia.
    rewrite to_int32_small by lia. lia.
Qed.

(** The run of a call that passes the checks, on buffers that hold two
    lists of [smax] elements. *)
Lemma memcmp32_s_run_lists dest dmax src smax diff s ld ls :
  checks_pass dest dmax src smax diff →
  is_Some (mem s !! diff) →
  apart diff dest (N.to_nat smax) → apart diff src (N.to_nat smax) →
  array_at (mem s) dest ld → array_at (mem s) src ls →
  length ld = N.to_nat smax → length ls = N.to_nat smax →
  ∃ s',
    memcmp32_s dest dmax src smax diff s = Done (RCNEGATE EOK) s' ∧
    mem s' !! diff = Some (first_diff ld ls) ∧
    ∀ a, a ≠ diff → mem s' !! a = mem s !! a.
Proof.
  intros Hpass Hdiff Had As Hld Hls Hlend Hlens.
  assert (smax <= dmax)%N as Hle by apply Hpass.
  destruct (decide (dest = src)) as [->|Hne].
  { assert (ld = ls) as <-.
    { apply list_eq. intros k. destruct (ld !! k) as [x|] eqn:Hx.
      - assert (is_Some (ls !! k)) as [y Hy].
        { apply lookup_lt_is_Some. apply lookup_lt_Some in Hx. lia. }
        rewrite Hy. apply Hld in Hx. apply Hls in Hy. congruence.
      - symmetry. apply lookup_ge_None. apply lookup_ge_None in Hx. lia. }
    rewrite memcmp32_s_pass, Z.eqb_refl by done. eexists. split; [done|].
    rewrite first_diff_refl. split; [apply zeroed_lookup_diff|].
    intros a Ha. by apply zeroed_lookup_ne. }
  destruct (first_diff_spec ld ls) as [[<- ->]|(d & v & Hd & Hv & Hdv & ->)];
    [lia| |].
  - rewrite memcmp32_s_pass by done. apply Z.eqb_neq in Hne as ->.
    erewrite bind_Done.
    2:{ apply (compare_loop_equal diff (N.to_nat smax)).
        - rewrite min_checked by done. lia.
        - lia.
        - intros k Hk.
          assert (is_Some (ld !! k)) as [w Hw] by (apply lookup_lt_is_Some; lia).
          exists w. rewrite !zeroed_lookup_ne by (try apply Had; try apply As; lia).
          split; [by apply Hld|by apply Hls]. }
    eexists. split; [done|]. cbn [mem]. split; [apply zeroed_lookup_diff|].
    intros a Ha. by apply zeroed_lookup_ne.
  - apply lookup_lt_Some in Hd as Hc.
    eexists. split.
    { eapply (memcmp32_s_mismatch_run _ _ _ _ _ _ ld ls); try done.
      - intros k Hk. apply Had. lia.
      - intros k Hk. apply As. lia.
      - lia.
      - apply common_prefix_take. }
    cbn [mem]. split; [by rewrite lookup_insert_eq|].
    intros a Ha. rewrite lookup_insert_ne by done. by apply zeroed_lookup_ne.
Qed.

(** X2: on buffers that hold the lists [ld] and [ls] of [smax] elements,
    a call that passes the checks returns success, leaves in [diff] the
    pattern [first_diff ld ls] (read as an [int]: its two's complement
    value) and changes no other cell; this covers [dest == src], where the
    lists coincide. *)
Theorem memcmp32_s_computes_first_diff dest dmax src smax diff s ld ls :
  checks_pass dest dmax src smax diff →
  is_Some (mem s !! diff) →
  apart diff dest (N.to_nat smax) → apart diff src (N.to_nat smax) →
  array_at (mem s) dest ld → array_at (mem s) src ls →
  length ld = N.to_nat smax → length ls = N.to_nat smax →
  ∃ s',
    memcmp32_s dest dmax src smax diff s = Done (RCNEGATE EOK) s' ∧
    read_int (mem s') diff = Some (to_int32 (first_diff ld ls)) ∧
    mem s' = <[diff := first_diff ld ls]> (mem s).
Proof.
  intros. destruct (memcmp32_s_run_lists dest dmax src smax diff s ld ls)
    as (s' & Hrun & Hd & Hm); try done.
  exists s'. split; [done|]. unfold read_int. rewrite Hd. split; [done|].
  apply map_eq. intros a. destruct (decide (a = diff)) as [->|Hne].
  - by rewrite lookup_insert_eq.
  - rewrite lookup_insert_ne by done. by apply Hm.
Qed.

(** X3: when the elements are 32-bit values, the [diff] of a successful
    call is 0 exactly when the first [smax] elements of the two buffers are
    equal. *)
Theorem memcmp32_s_zero_iff_equal dest dmax src smax diff s ld ls :
  checks_pass dest dmax src smax diff →
  is_Some (mem s !! diff) →
  apart diff dest (N.to_nat smax) → apart diff src (N.to_nat smax) →
  array_at (mem s) dest ld → array_at (mem s) src ls →
  length ld = N.to_nat smax → length ls = N.to_nat smax →
  Forall (λ x, 0 <= x < 2 ^ 32) ld →
  Forall (λ x, 0 <= x < 2 ^ 32) ls →
  ∃ s' r,
    memcmp32_s dest dmax src smax diff s = Done (RCNEGATE EOK) s' ∧
    read_int (mem s') diff = Some r ∧
    (r = 0 ↔ ld = ls).
Proof.
  intros ? ? ? ? ? ? Hlend Hlens Hrd Hrs.
  destruct (memcmp32_s_run_lists dest dmax src smax diff s ld ls)
    as (s' & Hrun & Hd & _); try done.
  exists s', (to_int32 (first_diff ld ls)). split; [done|].
  unfold read_int. rewrite Hd. split; [done|].
  rewrite to_int32_zero by apply first_diff_range.
  apply first_diff_zero_iff; [lia|done|done].
Qed.

(** X4: when every element is below 2^31, the sign of [diff] is the
    lexicographic order of the two buffers, as the header comment of the
    function describes: positive, zero or negative according to whether
    [dest] is greater than, equal to or less than [src]. *)
Theorem memcmp32_s_sign_is_order dest dmax src smax diff s ld ls :
  checks_pass dest dmax src smax diff →
  is_Some (mem s !! diff) →
  apart diff dest (N.to_nat smax) → apart diff src (N.to_nat smax) →
  array_at (mem s) dest ld → array_at (mem s) src ls →
  length ld = N.to_nat smax → length ls = N.to_nat smax →
  Forall (λ x, 0 <= x < 2 ^ 31) ld →
  Forall (λ x, 0 <= x < 2 ^ 31) ls →
  ∃ s' r,
    memcmp32_s dest dmax src smax diff s = Done (RCNEGATE EOK) s' ∧
    read_int (mem s') diff = Some r ∧
    (r ?= 0) = lex_compare ld ls.
Proof.
  intros ? ? ? ? ? ? Hlend Hlens Hrd Hrs.
  destruct (memcmp32_s_run_lists dest dmax src smax diff s ld ls)
    as (s' & Hrun & Hd & _); try done.
  exists s', (to_int32 (first_diff ld ls)). split; [done|].
  unfold read_int. rewrite Hd. split; [done|].
  apply first_diff_sign; [lia|done|done].
Qed.

Lemma compare_loop_dmax diff :
  ∀ fuel dest dmax dmax' src smax s,
    (smax <= dmax)%N → (smax <= dmax')%N →
    compare_loop fuel dest dmax src smax diff s =
    compare_loop fuel dest dmax' src smax diff s.
Proof.
  induction fuel as [|fuel IH]; intros dest dmax dmax' src smax s Hle Hle';
    [done|]. cbn [compare_loop].
  destruct (N.eqb_spec smax 0) as [->|Hs0].
  { by rewrite !andb_false_r. }
  replace (dmax =? 0)%N with false by (symmetry; apply N.eqb_neq; lia).
  replace (dmax' =? 0)%N with false by (symmetry; apply N.eqb_neq; lia).
  cbn [negb andb]. unfold mbind, M_bind.
  destruct (load dest s) as [d s1|s1|s1]; [|done..].
  destruct (load src s1) as [v s2|s2|s2]; [|done..].
  destruct (negb (d =? v)); [done|]. apply IH; lia.
Qed.

(** X5: once the checks pass, [dmax] plays no further part: two calls that
    differ only in a [dmax] that passes the checks run identically, on every
    memory.  The scan is bounded by [smax] alone. *)
Theorem memcmp32_s_dmax_irrelevant dest dmax dmax' src smax diff s :
  checks_pass dest dmax src smax diff →
  checks_pass dest dmax' src smax diff →
  memcmp32_s dest dmax src smax diff s =
  memcmp32_s dest dmax' src smax diff s.
Proof.
  intros Hpass Hpass'.
  assert (diff ≠ NULL) as Hnull by apply Hpass.
  assert (smax <= dmax)%N as Hle by apply Hpass.
  assert (smax <= dmax')%N as Hle' by apply Hpass'.
  destruct (mem s !! diff) as [x|] eqn:Hx.
  - rewrite !memcmp32_s_pass by eauto.
    destruct (dest =? src); [done|]. unfold mbind, M_bind.
    by rewrite (compare_loop_dmax diff _ dest dmax dmax').
  - by rewrite !memcmp32_s_bad_diff.
Qed.

(** X6: exchanging the two buffers (with [dmax = smax]) negates the
    result: the pattern left in [diff] is the 32-bit negation of the
    other, and the [int] read from it is the negated [int] unless that is
    the most negative one. *)
Theorem memcmp32_s_swap dest src n diff s ld ls :
  checks_pass dest n src n diff →
  is_Some (mem s !! diff) →
  apart diff dest (N.to_nat n) → apart diff src (N.to_nat n) →
  array_at (mem s) dest ld → array_at (mem s) src ls →
  length ld = N.to_nat n → length ls = N.to_nat n →
  ∃ s1 s2 p r,
    memcmp32_s dest n src n diff s = Done (RCNEGATE EOK) s1 ∧
    memcmp32_s src n dest n diff s = Done (RCNEGATE EOK) s2 ∧
    mem s1 !! diff = Some p ∧ read_int (mem s1) diff = Some r ∧
    mem s2 !! diff = Some (wrap32 (- p)) ∧
    (r ≠ - 2 ^ 31 → read_int (mem s2) diff = Some (- r)).
Proof.
  intros Hpass ? ? ? ? ? Hlend Hlens.
  assert (checks_pass src n dest n diff) as Hpass'.
  { destruct Hpass as (?&?&?&?&?&?&?). by repeat split. }
  destruct (memcmp32_s_run_lists dest n src n diff s ld ls)
    as (s1 & Hrun1 & Hd1 & _); try done.
  destruct (memcmp32_s_run_lists src n dest n diff s ls ld)
    as (s2 & Hrun2 & Hd2 & _); try done.
  exists s1, s2, (first_diff ld ls), (to_int32 (first_diff ld ls)).
  unfold read_int. rewrite Hd1, Hd2, (first_diff_swap ld ls).
  repeat split; try done.
  intros Hmin. cbn. f_equal. by apply to_int32_opp; [apply first_diff_range|].
Qed.

(** X7: a successful call can be repeated: made again on the memory the
    first call left, it returns the same code and leaves memory as it
    was. *)
Theorem memcmp32_s_repeat dest dmax src smax diff s ld ls :
  checks_pass dest dmax src smax diff →
  is_Some (mem s !! diff) →
  apart diff dest (N.to_nat smax) → apart diff src (N.to_nat smax) →
  array_at (mem s) dest ld → array_at (mem s) src ls →
  length ld = N.to_nat smax → length ls = N.to_nat smax →
  ∃ s1 s2,
    memcmp32_s dest dmax src smax diff s = Done (RCNEGATE EOK) s1 ∧
    memcmp32_s dest dmax src smax diff s1 = Done (RCNEGATE EOK) s2 ∧
    mem s2 = mem s1.
Proof.
  intros Hpass Hdiff Had As Hld Hls Hlend Hlens.
  destruct (memcmp32_s_run_lists dest dmax src smax diff s ld ls)
    as (s1 & Hrun1 & Hd1 & Hm1); try done.
  destruct (memcmp32_s_run_lists dest dmax src smax diff s1 ld ls)
    as (s2 & Hrun2 & Hd2 & Hm2); try done.
  - intros k v Hk. rewrite Hm1 by (apply Had; apply lookup_lt_Some in Hk; lia).
    by apply Hld.
  - intros k v Hk. rewrite Hm1 by (apply As; apply lookup_lt_Some in Hk; lia).
    by apply Hls.
  - exists s1, s2. split; [done|]. split; [done|].
    apply map_eq. intros a. destruct (decide (a = diff)) as [->|Hne].
    + by rewrite Hd1, Hd2.
    + by apply Hm2.
Qed.

Lemma first_diff_take n l1 l2 :
  first_diff (take n l1) (take n l2) ≠ 0 →
  first_diff l1 l2 = first_diff (take n l1) (take n l2).
Proof.
  revert l1 l2. induction n as [|n IH]; intros [|x l1] [|y l2]; cbn; try done.
  destruct (x =? y); [apply IH|done].
Qed.

Lemma array_at_take m p l n : array_at m p l → array_at m p (take n l).
Proof.
  intros H k v Hk. apply lookup_take_Some in Hk as [Hk _]. by apply H.
Qed.

(** X8: a difference found within the first [smax] elements is what a call
    with a longer [smax'] reports too: comparing more elements never
    changes a nonzero [diff]. *)
Theorem memcmp32_s_longer_scan dest dmax src smax smax' diff s ld ls :
  checks_pass dest dmax src smax diff →
  checks_pass dest dmax src smax' diff →
  (smax <= smax')%N →
  is_Some (mem s !! diff) →
  apart diff dest (N.to_nat smax') → apart diff src (N.to_nat smax') →
  array_at (mem s) dest ld → array_at (mem s) src ls →
  length ld = N.to_nat smax' → length ls = N.to_nat smax' →
  ∃ s1 s2 p,
    memcmp32_s dest dmax src smax diff s = Done (RCNEGATE EOK) s1 ∧
    memcmp32_s dest dmax src smax' diff s = Done (RCNEGATE EOK) s2 ∧
    mem s1 !! diff = Some p ∧
    (p ≠ 0 → mem s2 !! diff = Some p).
Proof.
  intros Hpass Hpass' Hle Hdiff Had As Hld Hls Hlend Hlens.
  destruct (memcmp32_s_run_lists dest dmax src smax diff s
              (take (N.to_nat smax) ld) (take (N.to_nat smax) ls))
    as (s1 & Hrun1 & Hd1 & _); try done.
  { intros k Hk. apply Had. lia. }
  { intros k Hk. apply As. lia. }
  { by apply array_at_take. }
  { by apply array_at_take. }
  { rewrite length_take. lia. }
  { rewrite length_take. lia. }
  destruct (memcmp32_s_run_lists dest dmax src smax' diff s ld ls)
    as (s2 & Hrun2 & Hd2 & _); try done.
  exists s1, s2, (first_diff (take (N.to_nat smax) ld) (take (N.to_nat smax) ls)).
  repeat split; try done. intros Hp. rewrite Hd2. f_equal.
  by apply first_diff_take.
Qed.

End Memcmp32.

(** ** The sample calls *)

Ltac solve_checks :=
  unfold checks_pass, NULL, sample_limit; repeat split; (done || lia).

Ltac solve_apart :=
  intros k Hk; cbn in Hk; unfold elem, sizeof_uint32; lia.

Ltac solve_array :=
  intros k v Hv;
  repeat (destruct k as [|k]; [injection Hv as <-; reflexivity|]);
  discriminate Hv.

Ltac solve_readable :=
  intros k Hk;
  repeat (destruct k as [|k]; [eexists; reflexivity|]); lia.

Ltac solve_mapped := eexists; reflexivity.

(** The scenario of the specification: [dest = [1,2,3,4]],
    [src = [1,2,99,4]], [dmax = smax = 4] gives success and [diff = -96]. *)
Lemma memcmp32_s_first_mismatch_witness :
  ∃ s',
    memcmp32_s sample_limit sample_RCNEGATE 100 4 200 4 300
      (mkState mem_mismatch []) = Done (sample_RCNEGATE EOK) s' ∧
    read_int (mem s') 300 = Some (-96).
Proof.
  destruct (memcmp32_s_first_mismatch sample_limit sample_RCNEGATE
              100 4 200 4 300 (mkState mem_mismatch [])
              [1; 2; 3; 4] [1; 2; 99; 4] 2 3 99)
    as (s' & r & Hrun & _ & Hread & _ & _ & Hfit).
  - solve_checks.
  - done.
  - solve_mapped.
  - solve_apart.
  - solve_apart.
  - solve_array.
  - solve_array.
  - cbn. lia.
  - reflexivity.
  - reflexivity.
  - reflexivity.
  - done.
  - exists s'. split; [exact Hrun|]. rewrite Hread. f_equal. apply Hfit. lia.
Defined.

(** [dest = [5,5]], [dmax = 2], [src = [5,5,5]], [smax = 3]: the first two
    elements agree, yet the call is rejected with [ESLEMAX]. *)
Lemma memcmp32_s_check_order_witness :
  ∃ s',
    memcmp32_s sample_limit sample_RCNEGATE 100 2 200 3 300
      (mkState mem_fives []) = Done 403 s'.
Proof.
  apply (memcmp32_s_check_order sample_limit sample_RCNEGATE
           100 2 200 3 300 (mkState mem_fives []) SmaxWithinDmax
           [DiffNonNull; DestNonNull; SrcNonNull; DmaxNonZero;
            DmaxWithinLimit; SmaxNonZero] []).
  - reflexivity.
  - repeat constructor.
  - reflexivity.
  - right. solve_mapped.
Defined.

(** Comparing the unmapped address 100 with itself succeeds. *)
Lemma memcmp32_s_same_pointer_witness :
  ∃ s',
    memcmp32_s sample_limit sample_RCNEGATE 100 4 100 4 300
      (mkState mem_bare []) = Done 0 s' ∧
    read_int (mem s') 300 = Some 0 ∧
    loads (trace s') = [] ∧
    stores (trace s') = [(300, 4294967295); (300, 0)].
Proof.
  apply (memcmp32_s_same_pointer sample_limit sample_RCNEGATE
           100 4 4 300 (mkState mem_bare [])).
  - solve_checks.
  - solve_mapped.
Defined.

(** [dest = [5,5]] against [src = [5,5]]. *)
Lemma memcmp32_s_equal_witness :
  ∃ s',
    memcmp32_s sample_limit sample_RCNEGATE 100 2 200 2 300
      (mkState mem_fives []) = Done 0 s' ∧
    read_int (mem s') 300 = Some 0.
Proof.
  apply (memcmp32_s_equal sample_limit sample_RCNEGATE
           100 2 200 2 300 (mkState mem_fives []) [5; 5]).
  - solve_checks.
  - solve_mapped.
  - solve_apart.
  - solve_apart.
  - solve_array.
  - solve_array.
  - reflexivity.
Defined.

(** [dest = [1,2,3,4]] against [src = [1,2,99,4]]: three pairs are examined,
    the third once more, and the fourth never. *)
Lemma memcmp32_s_lockstep_witness :
  ∃ s',
    memcmp32_s sample_limit sample_RCNEGATE 100 4 200 4 300
      (mkState mem_mismatch []) = Done 0 s' ∧
    loads (trace s') = [100; 200; 104; 204; 108; 208; 108; 208].
Proof.
  destruct (memcmp32_s_lockstep sample_limit sample_RCNEGATE
              100 4 200 4 300 (mkState mem_mismatch [])
              [1; 2; 3; 4] [1; 2; 99; 4])
    as (s' & examined & Hrun & -> & Hloads & _).
  - solve_checks.
  - done.
  - solve_mapped.
  - solve_apart.
  - solve_apart.
  - solve_array.
  - solve_array.
  - reflexivity.
  - reflexivity.
  - exists s'. split; [exact Hrun | exact Hloads].
Defined.

(** The rejected call above leaves -1 in [diff]. *)
Lemma memcmp32_s_error_default_witness :
  ∃ s',
    memcmp32_s sample_limit sample_RCNEGATE 100 2 200 3 300
      (mkState mem_fives []) = Done 403 s' ∧
    read_int (mem s') 300 = Some (-1).
Proof.
  apply (memcmp32_s_error_default sample_limit sample_RCNEGATE
           100 2 200 3 300 (mkState mem_fives []) SmaxWithinDmax).
  - reflexivity.
  - discriminate.
  - solve_mapped.
Defined.

(** A call with a mismatch still returns [EOK]. *)
Lemma memcmp32_s_error_iff_violation_witness :
  ∃ rc s',
    memcmp32_s sample_limit sample_RCNEGATE 100 4 200 4 300
      (mkState mem_mismatch []) = Done rc s' ∧
    (rc ≠ sample_RCNEGATE EOK ↔
     ∃ c, violated sample_limit 100 4 200 4 300 c = true) ∧
    (checks_pass sample_limit 100 4 200 4 300 → rc = sample_RCNEGATE EOK).
Proof.
  apply (memcmp32_s_error_iff_violation sample_limit sample_RCNEGATE
           100 4 200 4 300 (mkState mem_mismatch [])).
  - intros e He. destruct e; (reflexivity || discriminate He).
  - right. solve_mapped.
  - intros _ _. split; solve_readable.
Defined.

(** A call with [dmax = 0]: one handler call, and code 401. *)
Lemma memcmp32_s_handler_witness :
  ∃ rc s',
    memcmp32_s sample_limit sample_RCNEGATE 100 0 200 3 300
      (mkState mem_fives []) = Done rc s' ∧
    rc = 401 ∧
    handler_calls (trace s') = [("memcmp32_s: dmax is 0", NULL, ESZEROL)].
Proof.
  destruct (memcmp32_s_handler sample_limit sample_RCNEGATE
              100 0 200 3 300 (mkState mem_fives []))
    as (rc & s' & evs & Hrun & Htrace & Hviol).
  - right. solve_mapped.
  - intros Hpass. exfalso. by destruct Hpass as (_ & _ & _ & ? & _).
  - cbn in Hviol, Htrace. destruct Hviol as (Hrc & Hcalls & _).
    exists rc, s'. split; [exact Hrun|]. split; [exact Hrc|].
    rewrite Htrace. exact Hcalls.
Defined.

(** [dest[0] = 0x80000000] against [src[0] = 0]: [dest] holds the larger
    element, and [diff] is the most negative [int]. *)
Lemma memcmp32_s_diff_sign_wraps_witness :
  ∃ s',
    memcmp32_s sample_limit sample_RCNEGATE 100 1 200 1 300
      (mkState mem_far []) = Done 0 s' ∧
    read_int (mem s') 300 = Some (-2147483648).
Proof.
  destruct (memcmp32_s_diff_sign_wraps sample_limit sample_RCNEGATE
              100 1 200 1 300 (mkState mem_far [])
              [2147483648] [0] 0 2147483648 0)
    as (s' & Hrun & Hread & _).
  - solve_checks.
  - done.
  - solve_mapped.
  - solve_apart.
  - solve_apart.
  - solve_array.
  - solve_array.
  - cbn. lia.
  - reflexivity.
  - reflexivity.
  - reflexivity.
  - lia.
  - lia.
  - lia.
  - exists s'. split; [exact Hrun | exact Hread].
Defined.

(** The two scenarios of the specification, run as they are. *)
Example scenario_mismatch :
  memcmp32_s sample_limit sample_RCNEGATE 100 4 200 4 300
    (mkState mem_mismatch []) =
  Done 0 {| mem := <[300 := 4294967200]> mem_mismatch;
            trace := [EvStore 300 4294967295; EvStore 300 0;
                      EvLoad 100; EvLoad 200; EvLoad 104; EvLoad 204;
                      EvLoad 108; EvLoad 208; EvLoad 108; EvLoad 208;
                      EvStore 300 4294967200] |}.
Proof. vm_compute. reflexivity. Qed.

Example scenario_smax_exceeds_dmax :
  memcmp32_s sample_limit sample_RCNEGATE 100 2 200 3 300
    (mkState mem_fives []) =
  Done 403 {| mem := <[300 := 4294967295]> mem_fives;
              trace := [EvStore 300 4294967295;
                        EvHandler "memcmp32_s: smax exceeds dmax" NULL
                                  ESLEMAX] |}.
Proof. vm_compute. reflexivity. Qed.

(** A null [dest] is reported without any load. *)
Example scenario_null_dest :
  memcmp32_s sample_limit sample_RCNEGATE NULL 4 200 4 300
    (mkState mem_mismatch []) =
  Done 400 {| mem := <[300 := 4294967295]> mem_mismatch;
              trace := [EvStore 300 4294967295;
                        EvHandler "memcmp32_s: dest is null" NULL ESNULLP] |}.
Proof. vm_compute. reflexivity. Qed.

(** ** Further sample calls *)

Ltac solve_range := repeat constructor; lia.

(** On [[1,2,3,4]] against [[1,2,99,4]] the function leaves what
    [first_diff] computes, and only that. *)
Lemma memcmp32_s_computes_first_diff_witness :
  ∃ s',
    memcmp32_s sample_limit sample_RCNEGATE 100 4 200 4 300
      (mkState mem_mismatch []) = Done 0 s' ∧
    read_int (mem s') 300 = Some (-96) ∧
    mem s' = <[300 := 4294967200]> mem_mismatch.
Proof.
  apply (memcmp32_s_computes_first_diff sample_limit sample_RCNEGATE
           100 4 200 4 300 (mkState mem_mismatch [])
           [1; 2; 3; 4] [1; 2; 99; 4]).
  - solve_checks.
  - solve_mapped.
  - solve_apart.
  - solve_apart.
  - solve_array.
  - solve_array.
  - reflexivity.
  - reflexivity.
Defined.

(** [[5,5]] against [[5,5]]. *)
Lemma memcmp32_s_zero_iff_equal_witness :
  ∃ s' r,
    memcmp32_s sample_limit sample_RCNEGATE 100 2 200 2 300
      (mkState mem_fives []) = Done 0 s' ∧
    read_int (mem s') 300 = Some r ∧
    (r = 0 ↔ [5; 5] = [5; 5]).
Proof.
  apply (memcmp32_s_zero_iff_equal sample_limit sample_RCNEGATE
           100 2 200 2 300 (mkState mem_fives []) [5; 5] [5; 5]).
  - solve_checks.
  - solve_mapped.
  - solve_apart.
  - solve_apart.
  - solve_array.
  - solve_array.
  - reflexivity.
  - reflexivity.
  - solve_range.
  - solve_range.
Defined.

(** [[1,2,3,4]] is less than [[1,2,99,4]], and [diff] is negative. *)
Lemma memcmp32_s_sign_is_order_witness :
  ∃ s' r,
    memcmp32_s sample_limit sample_RCNEGATE 100 4 200 4 300
      (mkState mem_mismatch []) = Done 0 s' ∧
    read_int (mem s') 300 = Some r ∧
    (r ?= 0) = Lt.
Proof.
  apply (memcmp32_s_sign_is_order sample_limit sample_RCNEGATE
           100 4 200 4 300 (mkState mem_mismatch [])
           [1; 2; 3; 4] [1; 2; 99; 4]).
  - solve_checks.
  - solve_mapped.
  - solve_apart.
  - solve_apart.
  - solve_array.
  - solve_array.
  - reflexivity.
  - reflexivity.
  - solve_range.
  - solve_range.
Defined.

(** Declaring 10 elements for [dest] instead of 4 changes nothing. *)
Lemma memcmp32_s_dmax_irrelevant_witness :
  memcmp32_s sample_limit sample_RCNEGATE 100 4 200 4 300
    (mkState mem_mismatch []) =
  memcmp32_s sample_limit sample_RCNEGATE 100 10 200 4 300
    (mkState mem_mismatch []).
Proof.
  apply (memcmp32_s_dmax_irrelevant sample_limit sample_RCNEGATE
           100 4 10 200 4 300 (mkState mem_mismatch [])).
  - solve_checks.
  - solve_checks.
Defined.

(** -96 one way round, 96 the other. *)
Lemma memcmp32_s_swap_witness :
  ∃ s1 s2,
    memcmp32_s sample_limit sample_RCNEGATE 100 4 200 4 300
      (mkState mem_mismatch []) = Done 0 s1 ∧
    memcmp32_s sample_limit sample_RCNEGATE 200 4 100 4 300
      (mkState mem_mismatch []) = Done 0 s2 ∧
    read_int (mem s1) 300 = Some (-96) ∧
    read_int (mem s2) 300 = Some 96.
Proof.
  destruct (memcmp32_s_swap sample_limit sample_RCNEGATE
              100 200 4 300 (mkState mem_mismatch [])
              [1; 2; 3; 4] [1; 2; 99; 4])
    as (s1 & s2 & p & r & Hrun1 & Hrun2 & _ & Hr & _ & Hneg).
  - solve_checks.
  - solve_mapped.
  - solve_apart.
  - solve_apart.
  - solve_array.
  - solve_array.
  - reflexivity.
  - reflexivity.
  - exists s1, s2. split; [exact Hrun1|]. split; [exact Hrun2|].
    assert (r = -96) as ->.
    { pose proof Hrun1 as Hrun. rewrite scenario_mismatch in Hrun.
      injection Hrun as <-. vm_compute in Hr. by injection Hr as <-. }
    split; [exact Hr|]. apply Hneg. lia.
Defined.

(** The mismatch call, made twice. *)
Lemma memcmp32_s_repeat_witness :
  ∃ s1 s2,
    memcmp32_s sample_limit sample_RCNEGATE 100 4 200 4 300
      (mkState mem_mismatch []) = Done 0 s1 ∧
    memcmp32_s sample_limit sample_RCNEGATE 100 4 200 4 300 s1 = Done 0 s2 ∧
    mem s2 = mem s1.
Proof.
  apply (memcmp32_s_repeat sample_limit sample_RCNEGATE
           100 4 200 4 300 (mkState mem_mismatch [])
           [1; 2; 3; 4] [1; 2; 99; 4]).
  - solve_checks.
  - solve_mapped.
  - solve_apart.
  - solve_apart.
  - solve_array.
  - solve_array.
  - reflexivity.
  - reflexivity.
Defined.

(** The difference found in the first three elements is the one reported
    for all four. *)
Lemma memcmp32_s_longer_scan_witness :
  ∃ s1 s2 p,
    memcmp32_s sample_limit sample_RCNEGATE 100 4 200 3 300
      (mkState mem_mismatch []) = Done 0 s1 ∧
    memcmp32_s sample_limit sample_RCNEGATE 100 4 200 4 300
      (mkState mem_mismatch []) = Done 0 s2 ∧
    mem s1 !! 300 = Some p ∧
    (p ≠ 0 → mem s2 !! 300 = Some p).
Proof.
  apply (memcmp32_s_longer_scan sample_limit sample_RCNEGATE
           100 4 200 3 4 300 (mkState mem_mismatch [])
           [1; 2; 3; 4] [1; 2; 99; 4]).
  - solve_checks.
  - solve_checks.
  - lia.
  - solve_mapped.
  - solve_apart.
  - solve_apart.
  - solve_array.
  - solve_array.
  - reflexivity.
  - reflexivity.
Defined.
